(** * replace_app_icon: the app-icon pipeline of [scripts/replace_app_icon.py]

    The script loads one source image, crops it to a centred square, turns
    its light background transparent, resizes it once per distinct pixel
    size and saves every named icon file.  This development embeds the
    script over an explicit model of the two things it talks to:

    - Pillow images ([Module PIL]): a mode, a size and row-major pixel data;
    - the file system and the console ([World]), threaded through a small
      state-and-exception monad ([M]).

    Pillow's decoder, PNG encoder and Lanczos filter are not part of the
    repository; they are the fields of the class [Codec] and stay abstract
    in every theorem. *)

From Stdlib Require Import ZArith Lia.
From Stdlib.Strings Require Import Byte.
From stdpp Require Import gmap strings list fin_maps.

Local Open Scope Z_scope.
#[local] Set Warnings "-clear-no-such-hyp".

(** ** Pillow images *)

Module PIL.

(** The two modes the script ever asks for. *)
Inductive Mode := RGB | RGBA.

(** Pillow stores both modes as four bytes per pixel; in mode [RGB] the
    fourth byte is padding, which [convert] fills with 255. *)
Abbreviation pixel := (Z * Z * Z * Z)%type.

Record Image := mkImage {
  mode : Mode;
  im_size : Z * Z;            (* (width, height) *)
  getdata : list pixel        (* row-major, as [Image.getdata] *)
}.

Definition width (im : Image) : Z := fst (im_size im).
Definition height (im : Image) : Z := snd (im_size im).

(** An image owns exactly width * height pixels. *)
Definition well_formed (im : Image) : Prop :=
  0 <= width im /\ 0 <= height im /\
  Z.of_nat (length (getdata im)) = width im * height im.

Definition opaque (p : pixel) : pixel :=
  let '(r, g, b, _) := p in (r, g, b, 255).

(** [im.convert("RGB")]: the alpha band is dropped. *)
Definition convert_RGB (im : Image) : Image :=
  mkImage RGB (im_size im) (map opaque (getdata im)).

(** [im.convert("RGBA")]: an RGB image gets alpha 255, an RGBA image is
    copied. *)
Definition convert_RGBA (im : Image) : Image :=
  match mode im with
  | RGB => mkImage RGBA (im_size im) (map opaque (getdata im))
  | RGBA => im
  end.

(** [img.putdata(new_data)]: same mode and size, new pixel contents. *)
Definition putdata (im : Image) (new_data : list pixel) : Image :=
  mkImage (mode im) (im_size im) new_data.

(** The pixel at column [x], row [y]; outside the image Pillow's [crop]
    reads zeroes. *)
Definition pixel_at (im : Image) (x y : Z) : pixel :=
  if (0 <=? x) && (x <? width im) && (0 <=? y) && (y <? height im)
  then nth (Z.to_nat (y * width im + x)) (getdata im) (0, 0, 0, 0)
  else (0, 0, 0, 0).

(** [im.crop((left, upper, right, lower))].  Pillow raises ValueError when
    [right < left] or [lower < upper]; the script's box never is (see
    [crop_box_inside]). *)
Definition crop (im : Image) (box : Z * Z * Z * Z) : Image :=
  let '(x0, y0, x1, y1) := box in
  let w := x1 - x0 in
  let h := y1 - y0 in
  mkImage (mode im) (w, h)
    (map (fun i => pixel_at im (x0 + i mod w) (y0 + i / w))
         (seqZ 0 (w * h))).

End PIL.

Import PIL.

(** What the script uses of Pillow without owning it. *)
Class Codec := {
  (** [Image.open(path)] followed by the load that [convert] triggers:
      [None] when the bytes are not a decodable image. *)
  decode : list byte -> option Image;
  (** the bytes [Image.save(path, "PNG")] writes *)
  png_encode : Image -> list byte;
  (** the pixels [Image.resize(size, Image.Resampling.LANCZOS)] computes *)
  lanczos : Image -> Z * Z -> list pixel
}.

(** ** Paths *)

(** A [pathlib.Path], as its components below the root. *)
Abbreviation Path := (list string).

(** [p / name] for a one-component [name]. *)
Definition joinpath (p : Path) (name : string) : Path := p ++ [name].

(** [p.parent] *)
Definition parent (p : Path) : Path := removelast p.

(** [p] and all its ancestors, the root excluded. *)
Fixpoint ancestors_and_self (p : Path) : list Path :=
  match p with
  | [] => []
  | c :: q => [c] :: map (cons c) (ancestors_and_self q)
  end.

(** ** The world: directories, regular files, console, and the calls made
    to [Image.resize] *)

Record World := mkWorld {
  dirs : gset Path;
  files : gmap Path (list byte);
  stdout : list Path;
  resize_calls : list (Z * Z)
}.

Inductive exn :=
| FileExistsError
| NotADirectoryError
| FileNotFoundError
| IsADirectoryError
| UnidentifiedImageError
| KeyError.

Inductive result (A : Type) :=
| Ok (a : A)
| Raise (e : exn).
Arguments Ok {A} a.
Arguments Raise {A} e.

(** State and exceptions: an uncaught exception keeps the world reached. *)
Definition M (A : Type) : Type := World -> result A * World.

Definition ret {A} (a : A) : M A := fun w => (Ok a, w).
Definition raise {A} (e : exn) : M A := fun w => (Raise e, w).
Definition bind {A B} (m : M A) (k : A -> M B) : M B :=
  fun w => match m w with
           | (Ok a, w') => k a w'
           | (Raise e, w') => (Raise e, w')
           end.

Notation "x <- m ;; k" := (bind m (fun x => k))
  (at level 100, m at next level, right associativity).
Notation "m ;;; k" := (bind m (fun _ => k))
  (at level 100, right associativity).

(** [for x in xs: body x] *)
Fixpoint for_each {A} (xs : list A) (body : A -> M unit) : M unit :=
  match xs with
  | [] => ret tt
  | x :: rest => body x ;;; for_each rest body
  end.

(** ** File-system and console primitives *)

(** [p.mkdir(parents=True, exist_ok=True)]: fails when [p] is a regular file
    (FileExistsError) or lies below one (NotADirectoryError); otherwise [p]
    and every missing ancestor become directories. *)
Definition mkdir_parents_exist_ok (p : Path) : M unit := fun w =>
  if decide (is_Some (files w !! p)) then (Raise FileExistsError, w)
  else if existsb (fun q => bool_decide (is_Some (files w !! q)))
                  (ancestors_and_self p)
  then (Raise NotADirectoryError, w)
  else (Ok tt,
        mkWorld (list_to_set (ancestors_and_self p) ∪ dirs w)
                (files w) (stdout w) (resize_calls w)).

(** [print(p)] *)
Definition print (p : Path) : M unit := fun w =>
  (Ok tt, mkWorld (dirs w) (files w) (stdout w ++ [p]) (resize_calls w)).

Section Pipeline.

Context `{Codec}.

(** [Path(__file__).resolve().parent.parent]: where the repository is
    checked out. *)
Variable REPO : Path.

(** [Image.open(p)] with the pixel load it defers. *)
Definition Image_open (p : Path) : M Image := fun w =>
  match files w !! p with
  | None =>
      if decide (p ∈ dirs w) then (Raise IsADirectoryError, w)
      else (Raise FileNotFoundError, w)
  | Some bytes =>
      match decode bytes with
      | None => (Raise UnidentifiedImageError, w)
      | Some im => (Ok im, w)
      end
  end.

(** The image [im.resize(size, LANCZOS)] returns. *)
Definition resized (im : Image) (size : Z * Z) : Image :=
  mkImage (mode im) size (lanczos im size).

(** [im.resize(size, Image.Resampling.LANCZOS)], recording the call. *)
Definition resize (im : Image) (size : Z * Z) : M Image := fun w =>
  (Ok (resized im size),
   mkWorld (dirs w) (files w) (stdout w) (resize_calls w ++ [size])).

(** [im.save(p, "PNG")]: opens [p] for writing, then writes the PNG. *)
Definition save (im : Image) (p : Path) : M unit := fun w =>
  if decide (p ∈ dirs w) then (Raise IsADirectoryError, w)
  else if decide (parent p ∈ dirs w)
  then (Ok tt, mkWorld (dirs w) (<[p := png_encode im]> (files w))
                       (stdout w) (resize_calls w))
  else (Raise FileNotFoundError, w).

(** ** The script *)

Definition SRC : Path :=
  ["Users"; "jcalles"; ".cursor"; "projects";
   "Users-jcalles-github-PortfolioMultiplatform"; "assets";
   "image-0df30865-3908-4db0-b81c-4bba4cb06804.png"]%string.

Definition OUT_DIR : Path :=
  REPO ++ ["Shared"; "Assets.xcassets"; "AppIcon.appiconset"]%string.

(** (pixel_size, [filenames]) *)
Definition SIZES : list (Z * list string) :=
  [ (20, ["icon-20.png"]);
    (40, ["icon-20@2x.png"; "icon-20@2x-ipad.png"]);
    (60, ["icon-20@3x.png"]);
    (29, ["icon-29.png"]);
    (58, ["icon-29@2x.png"; "icon-29@2x-ipad.png"]);
    (87, ["icon-29@3x.png"]);
    (40, ["icon-40.png"]);
    (80, ["icon-40@2x.png"; "icon-40@2x-ipad.png"]);
    (120, ["icon-40@3x.png"]);
    (120, ["icon-60@2x.png"]);
    (180, ["icon-60@3x.png"]);
    (76, ["icon-76.png"]);
    (152, ["icon-76@2x.png"]);
    (167, ["icon-83.5@2x.png"]);
    (1024, ["icon-1024.png"]);
    (16, ["icon-mac-16.png"]);
    (32, ["icon-mac-16@2x.png"; "icon-mac-32.png"]);
    (64, ["icon-mac-32@2x.png"]);
    (128, ["icon-mac-128.png"]);
    (256, ["icon-mac-128@2x.png"; "icon-mac-256.png"]);
    (512, ["icon-mac-256@2x.png"; "icon-mac-512.png"]);
    (1024, ["icon-mac-512@2x.png"]) ]%string.

(** The per-pixel rule of [make_background_transparent]'s loop body. *)
Definition transparent_rule (threshold : Z) (item : pixel) : pixel :=
  let '(r, g, b, a) := item in
  if (r >=? threshold) && (g >=? threshold) && (b >=? threshold)
  then (r, g, b, 0)
  else item.

(** Replace light gray/white background with transparency.  The script
    only ever calls it with the default [threshold], 235. *)
Definition make_background_transparent (img : Image) (threshold : Z) : Image :=
  let img := convert_RGBA img in
  let data := getdata img in
  let new_data := map (transparent_rule threshold) data in
  putdata img new_data.

(** Lines 57-60 of [main]: the box handed to [crop] when [w != h]. *)
Definition crop_box (w h : Z) : Z * Z * Z * Z :=
  let s := Z.min w h in
  let left := (w - s) / 2 in
  let top := (h - s) / 2 in
  (left, top, left + s, top + s).

(** Lines 55-60 of [main]: crop to the centred square unless the image is
    square already. *)
Definition square_crop (im : Image) : Image :=
  let '(w, h) := im_size im in
  if negb (w =? h) then crop im (crop_box w h) else im.

(** Lines 64-71 of [main]: the loop over [SIZES], with the cache
    [seen_size] as its accumulator. *)
Fixpoint for_sizes (im : Image) (out_dir : Path)
    (sizes : list (Z * list string)) (seen_size : gmap Z Image) : M unit :=
  match sizes with
  | [] => ret tt
  | (size, filenames) :: rest =>
      seen_size <-
        (match seen_size !! size with
         | None =>
             r <- resize im (size, size) ;;
             ret (<[size := r]> seen_size)
         | Some _ => ret seen_size
         end) ;;
      for_each filenames (fun name =>
        let out_path := joinpath out_dir name in
        match seen_size !! size with
        | Some r => save r out_path
        | None => raise KeyError
        end ;;;
        print out_path) ;;;
      for_sizes im out_dir rest seen_size
  end.

Definition main : M unit :=
  let out_dir := OUT_DIR in
  mkdir_parents_exist_ok out_dir ;;;
  im <- Image_open SRC ;;
  let im := convert_RGB im in
  let im := square_crop im in
  let im := make_background_transparent im 235 in
  (* Dedupe by size so we only resize once per pixel size *)
  let seen_size : gmap Z Image := ∅ in
  for_sizes im out_dir SIZES seen_size.

(** ** What a run is expected to leave behind

    The definitions below are not lines of the script: they describe its
    effect in closed form and are what the theorems compare a run with. *)

(** The raster [main] hands to the resize loop, from the decoded source. *)
Definition prepared (src : Image) : Image :=
  make_background_transparent (square_crop (convert_RGB src)) 235.

(** Every filename of a size table, in declaration order. *)
Definition filenames (sizes : list (Z * list string)) : list string :=
  flat_map snd sizes.

(** The (path, bytes) pairs a table asks for, in write order. *)
Definition outputs (im : Image) (out_dir : Path)
    (sizes : list (Z * list string)) : list (Path * list byte) :=
  flat_map (fun '(size, names) =>
              map (fun name => (joinpath out_dir name,
                                png_encode (resized im (size, size))))
                  names)
           sizes.

(** Writing pairs one after the other; a later pair overwrites. *)
Definition write_all (outs : list (Path * list byte))
    (fs : gmap Path (list byte)) : gmap Path (list byte) :=
  foldl (fun m '(p, b) => <[p := b]> m) fs outs.

(** The sizes of [l] not in [seen], each at its first occurrence. *)
Fixpoint first_seen (seen : gset Z) (l : list Z) : list Z :=
  match l with
  | [] => []
  | s :: rest =>
      if decide (s ∈ seen) then first_seen seen rest
      else s :: first_seen ({[s]} ∪ seen) rest
  end.

(** The two phases of one iteration of the loop, named: filling the cache
    (lines 65-67) and saving the entry's files (lines 68-71). *)
Definition cache_step (im : Image) (size : Z) (seen_size : gmap Z Image)
    : M (gmap Z Image) :=
  match seen_size !! size with
  | None =>
      r <- resize im (size, size) ;;
      ret (<[size := r]> seen_size)
  | Some _ => ret seen_size
  end.

Definition save_loop (out_dir : Path) (size : Z) (filenames : list string)
    (seen_size : gmap Z Image) : M unit :=
  for_each filenames (fun name =>
    let out_path := joinpath out_dir name in
    match seen_size !! size with
    | Some r => save r out_path
    | None => raise KeyError
    end ;;;
    print out_path).

(** The world a complete run leaves, from the decoded source and the world
    it started in. *)
Definition final_world (src : Image) (w : World) : World :=
  let outs := outputs (prepared src) OUT_DIR SIZES in
  mkWorld (list_to_set (ancestors_and_self OUT_DIR) ∪ dirs w)
          (write_all outs (files w))
          (stdout w ++ map fst outs)
          (resize_calls w ++
             map (fun s => (s, s)) (first_seen ∅ (map fst SIZES))).

(** Nothing stands in the way of [OUT_DIR.mkdir]: neither the directory
    nor any of its ancestors is a regular file. *)
Definition mkdir_clear (p : Path) (w : World) : Prop :=
  files w !! p = None /\
  forall q, q ∈ ancestors_and_self p -> files w !! q = None.

(** An unreadable source: no file at the path, or bytes that do not decode. *)
Definition unreadable (p : Path) (w : World) : Prop :=
  files w !! p = None \/
  exists bytes, files w !! p = Some bytes /\ decode bytes = None.

(** Every cached raster is the resize of [im] to its key. *)
Definition cache_sound (im : Image) (seen_size : gmap Z Image) : Prop :=
  forall s r, seen_size !! s = Some r -> r = resized im (s, s).

End Pipeline.

(** ** A concrete codec

    An uncompressed stand-in for Pillow's PNG codec and resampling filter,
    used to run the pipeline on concrete inputs: a file is its width, its
    height and three bytes per pixel (two bytes per dimension and four per
    pixel when written); resizing samples the nearest source pixel.  It
    only serves to exhibit concrete runs: no theorem about the script depends
    on it. *)

Module Raw.

Definition byteZ (b : byte) : Z := Z.of_N (Byte.to_N b).

Definition Zbyte (z : Z) : byte :=
  default x00 (Byte.of_N (Z.to_N (z mod 256))).

Fixpoint pixels (bs : list byte) : list pixel :=
  match bs with
  | r :: g :: b :: rest => (byteZ r, byteZ g, byteZ b, 255) :: pixels rest
  | _ => []
  end.

Definition raw_decode (bs : list byte) : option Image :=
  match bs with
  | w :: h :: rest =>
      if Z.of_nat (length rest) =? 3 * (byteZ w * byteZ h)
      then Some (mkImage RGB (byteZ w, byteZ h) (pixels rest))
      else None
  | _ => None
  end.

Definition raw_encode (im : Image) : list byte :=
  [Zbyte (width im / 256); Zbyte (width im);
   Zbyte (height im / 256); Zbyte (height im)] ++
  flat_map (fun '(r, g, b, a) => [Zbyte r; Zbyte g; Zbyte b; Zbyte a])
           (getdata im).

Definition nearest (im : Image) (size : Z * Z) : list pixel :=
  let '(w, h) := size in
  map (fun i => pixel_at im ((i mod w) * width im / w)
                            ((i / w) * height im / h))
      (seqZ 0 (w * h)).

Definition codec : Codec :=
  {| decode := raw_decode; png_encode := raw_encode; lanczos := nearest |}.

(** A 4 x 2 source: dark marks on a white and light-grey ground. *)
Definition source : list byte :=
  [x04; x02;
   xff; xff; xff;   x10; x20; x80;   xf0; xeb; xf5;   xff; xff; xff;
   xeb; xeb; xeb;   xea; xff; xff;   x00; x00; x00;   xff; xff; xff].

(** The image those bytes decode to. *)
Definition image : Image :=
  mkImage RGB (4, 2)
    [(255, 255, 255, 255); (16, 32, 128, 255);
     (240, 235, 245, 255); (255, 255, 255, 255);
     (235, 235, 235, 255); (234, 255, 255, 255);
     (0, 0, 0, 255); (255, 255, 255, 255)].

(** An RGBA image without a light pixel; its second pixel is transparent
    already. *)
Definition dark : Image :=
  mkImage RGBA (2, 1) [(16, 32, 128, 255); (0, 0, 0, 0)].

Definition repo : Path := ["home"; "dev"; "Portfolio"]%string.

(** The source image is in place and nothing else is. *)
Definition world0 : World :=
  mkWorld ∅ {[ SRC := source ]} [] [].

(** The source is missing. *)
Definition empty_world : World := mkWorld ∅ ∅ [] [].

(** The source is in place, and a directory sits where the fifth file,
    [icon-29.png], is to be written. *)
Definition blocked_world : World :=
  mkWorld {[ joinpath (OUT_DIR repo) "icon-29.png" ]}
          {[ SRC := source ]} [] [].

End Raw.


(** * Properties *)

(** ** The monad *)

Lemma bind_Ok {A B} (m : M A) (k : A -> M B) w b w' :
  bind m k w = (Ok b, w') ->
  exists a w1, m w = (Ok a, w1) /\ k a w1 = (Ok b, w').
Proof.
  unfold bind. destruct (m w) as [[a|e] w1]; intros E.
  - exists a, w1. split; [reflexivity | exact E].
  - discriminate E.
Qed.

Lemma bind_Ok_intro {A B} (m : M A) (k : A -> M B) w a w1 :
  m w = (Ok a, w1) -> bind m k w = k a w1.
Proof. unfold bind. intros ->. reflexivity. Qed.

Lemma bind_Raise_intro {A B} (m : M A) (k : A -> M B) w e w1 :
  m w = (Raise e, w1) -> bind m k w = (Raise e, w1).
Proof. unfold bind. intros ->. reflexivity. Qed.

Lemma run_Ok_eq {A} (m : M A) w a :
  fst (m w) = Ok a -> m w = (Ok a, snd (m w)).
Proof. destruct (m w) as [r w']. simpl. intros ->. reflexivity. Qed.

(** ** Paths *)

Lemma parent_joinpath p name : parent (joinpath p name) = p.
Proof. unfold parent, joinpath. apply removelast_last. Qed.

Lemma joinpath_inj p n1 n2 : joinpath p n1 = joinpath p n2 -> n1 = n2.
Proof.
  unfold joinpath. intros E. apply app_inv_head in E. congruence.
Qed.

Lemma joinpath_last p name : last (joinpath p name) = Some name.
Proof. unfold joinpath. apply last_snoc. Qed.

Lemma ancestors_and_self_length p q :
  q ∈ ancestors_and_self p -> (length q <= length p)%nat.
Proof.
  revert q. induction p as [|c p IH]; intros q Hq; simpl in *.
  - inversion Hq.
  - apply elem_of_cons in Hq as [-> | Hq]; [simpl; lia|].
    apply list_elem_of_fmap in Hq as (q' & -> & Hq').
    simpl. specialize (IH _ Hq'). lia.
Qed.

Lemma ancestors_and_self_self p : p <> [] -> p ∈ ancestors_and_self p.
Proof.
  induction p as [|c p IH]; [congruence|]. intros _. simpl.
  destruct p as [|c' p].
  - simpl. left.
  - right. apply list_elem_of_fmap. exists (c' :: p). split; [reflexivity|].
    apply IH. discriminate.
Qed.

Lemma joinpath_not_ancestor p name :
  joinpath p name ∉ ancestors_and_self p.
Proof.
  intros Hin. apply ancestors_and_self_length in Hin.
  unfold joinpath in Hin. rewrite length_app in Hin. simpl in Hin. lia.
Qed.

(** ** Images: crop *)

Lemma crop_size im x0 y0 x1 y1 :
  im_size (crop im (x0, y0, x1, y1)) = (x1 - x0, y1 - y0).
Proof. reflexivity. Qed.

(** A cropped pixel is the source pixel displaced by the box's corner. *)
Lemma crop_pixel_at im x0 y0 x1 y1 x y :
  0 <= x < x1 - x0 -> 0 <= y < y1 - y0 ->
  pixel_at (crop im (x0, y0, x1, y1)) x y = pixel_at im (x0 + x) (y0 + y).
Proof.
  intros Hx Hy.
  set (w := x1 - x0) in *. set (h := y1 - y0) in *.
  assert (Hi : 0 <= y * w + x < w * h) by nia.
  unfold pixel_at at 1. unfold width, height. rewrite crop_size. simpl.
  fold w. fold h.
  replace ((0 <=? x) && (x <? w) && (0 <=? y) && (y <? h)) with true
    by (symmetry; repeat (apply andb_true_intro; split); lia).
  unfold crop. fold w. fold h. simpl.
  apply nth_lookup_Some.
  rewrite list_lookup_fmap.
  rewrite (lookup_seqZ_lt 0 (w * h) (Z.to_nat (y * w + x))) by lia.
  simpl. rewrite Z2Nat.id by lia. rewrite Z.add_0_l.
  assert (Hm : (y * w + x) mod w = x).
  { rewrite Z.add_comm, Z_mod_plus_full. apply Z.mod_small. lia. }
  assert (Hd : (y * w + x) / w = y).
  { rewrite Z.add_comm, Z.div_add by lia. rewrite Z.div_small by lia. lia. }
  rewrite Hm, Hd. reflexivity.
Qed.

(** The box of lines 57-60 lies inside the image, so Pillow's [crop]
    accepts it and pads nothing. *)
Lemma crop_box_inside w h x0 y0 x1 y1 :
  0 <= w -> 0 <= h -> crop_box w h = (x0, y0, x1, y1) ->
  0 <= x0 <= x1 /\ x1 <= w /\ 0 <= y0 <= y1 /\ y1 <= h.
Proof.
  unfold crop_box. intros Hw Hh E. inversion E; subst; clear E.
  assert (0 <= (w - Z.min w h) / 2) by (apply Z.div_pos; lia).
  assert (0 <= (h - Z.min w h) / 2) by (apply Z.div_pos; lia).
  assert ((w - Z.min w h) / 2 <= w - Z.min w h)
    by (apply Z.div_le_upper_bound; lia).
  assert ((h - Z.min w h) / 2 <= h - Z.min w h)
    by (apply Z.div_le_upper_bound; lia).
  lia.
Qed.

Lemma crop_box_offsets w h :
  crop_box w h =
    ((if h <? w then (Z.max w h - Z.min w h) / 2 else 0),
     (if w <? h then (Z.max w h - Z.min w h) / 2 else 0),
     (if h <? w then (Z.max w h - Z.min w h) / 2 else 0) + Z.min w h,
     (if w <? h then (Z.max w h - Z.min w h) / 2 else 0) + Z.min w h).
Proof.
  unfold crop_box.
  destruct (Z.ltb_spec h w), (Z.ltb_spec w h); try lia.
  - rewrite Z.max_l, Z.min_r by lia. rewrite Z.sub_diag. reflexivity.
  - rewrite Z.max_r, Z.min_l by lia. rewrite Z.sub_diag. reflexivity.
  - assert (w = h) by lia. subst. rewrite Z.min_id, Z.sub_diag. reflexivity.
Qed.

Lemma square_crop_size im :
  im_size (square_crop im) =
    (Z.min (width im) (height im), Z.min (width im) (height im)).
Proof.
  unfold square_crop, width, height.
  destruct (im_size im) as [w h] eqn:Hsz. cbn [fst snd].
  destruct (Z.eqb_spec w h) as [->|Hne]; cbn [negb].
  - rewrite Hsz, Z.min_id. reflexivity.
  - unfold crop_box. cbv zeta. rewrite crop_size. f_equal; lia.
Qed.

(** C2.  When width and height differ, lines 55-60 of [main] crop to a
    square of side [min w h]; the box starts at
    [(larger - smaller) // 2] on the longer axis and at 0 on the shorter
    one, and every cropped pixel is the source pixel displaced by that
    offset.  When width equals height the image is returned as it is. *)
Theorem square_crop_centered (im : Image) (w h : Z) :
  im_size im = (w, h) ->
  (w <> h ->
     let s := Z.min w h in
     let off := (Z.max w h - Z.min w h) / 2 in
     let left := if h <? w then off else 0 in
     let top := if w <? h then off else 0 in
     square_crop im = crop im (left, top, left + s, top + s) /\
     im_size (square_crop im) = (s, s) /\
     (forall x y, 0 <= x < s -> 0 <= y < s ->
        pixel_at (square_crop im) x y = pixel_at im (left + x) (top + y))) /\
  (w = h -> square_crop im = im).
Proof.
  intros Hsz. split.
  - intros Hne. cbv zeta.
    assert (E : square_crop im = crop im (crop_box w h)).
    { unfold square_crop. rewrite Hsz.
      destruct (Z.eqb_spec w h); [contradiction | reflexivity]. }
    rewrite crop_box_offsets in E. rewrite E. split; [reflexivity|]. split.
    + rewrite crop_size. f_equal; lia.
    + intros x y Hx Hy. apply crop_pixel_at; lia.
  - intros ->. unfold square_crop. rewrite Hsz, Z.eqb_refl. reflexivity.
Qed.


(** ** Images: background transparency *)

Lemma convert_RGBA_size img : im_size (convert_RGBA img) = im_size img.
Proof. unfold convert_RGBA. destruct (mode img); reflexivity. Qed.

Lemma convert_RGBA_lookup img i r g b a0 :
  getdata img !! i = Some (r, g, b, a0) ->
  getdata (convert_RGBA img) !! i =
    Some (r, g, b, match mode img with RGB => 255 | RGBA => a0 end).
Proof.
  intros Hi. unfold convert_RGBA. destruct (mode img); simpl.
  - rewrite list_lookup_fmap, Hi. reflexivity.
  - exact Hi.
Qed.

Lemma convert_RGBA_length img :
  length (getdata (convert_RGBA img)) = length (getdata img).
Proof.
  unfold convert_RGBA.
  destruct (mode img); simpl; [apply length_map | reflexivity].
Qed.

(** The output pixel at an index is the rule applied to the input pixel at
    that index. *)
Lemma make_background_transparent_lookup img threshold i :
  getdata (make_background_transparent img threshold) !! i =
    transparent_rule threshold <$> getdata (convert_RGBA img) !! i.
Proof.
  unfold make_background_transparent, putdata. simpl.
  apply list_lookup_fmap.
Qed.

Lemma transparent_rule_light threshold r g b a :
  threshold <= r -> threshold <= g -> threshold <= b ->
  transparent_rule threshold (r, g, b, a) = (r, g, b, 0).
Proof.
  intros Hr Hg Hb. unfold transparent_rule.
  destruct (Z.geb_spec r threshold); [|lia].
  destruct (Z.geb_spec g threshold); [|lia].
  destruct (Z.geb_spec b threshold); [|lia].
  reflexivity.
Qed.

Lemma transparent_rule_dark threshold r g b a :
  r < threshold \/ g < threshold \/ b < threshold ->
  transparent_rule threshold (r, g, b, a) = (r, g, b, a).
Proof.
  intros Hlt. unfold transparent_rule.
  destruct (Z.geb_spec r threshold); simpl; [|reflexivity].
  destruct (Z.geb_spec g threshold); simpl; [|reflexivity].
  destruct (Z.geb_spec b threshold); simpl; [|reflexivity].
  lia.
Qed.

Lemma make_background_transparent_size img threshold :
  im_size (make_background_transparent img threshold) = im_size img.
Proof.
  unfold make_background_transparent, putdata. simpl. apply convert_RGBA_size.
Qed.

Lemma make_background_transparent_length img threshold :
  length (getdata (make_background_transparent img threshold)) =
  length (getdata img).
Proof.
  unfold make_background_transparent, putdata. simpl.
  rewrite length_map. apply convert_RGBA_length.
Qed.

(** C3.  With threshold 235, a pixel whose three colour channels are all at
    least 235 comes out with alpha 0 and its colour kept; a pixel with some
    channel below 235 comes out unchanged, so with alpha 255 when the input
    is an RGB image.  The output at an index depends on nothing but the
    pixel at that index: equal pixels, in any image at any position, have
    equal outputs. *)
Theorem make_background_transparent_pixel (img : Image) (i : nat)
    (r g b a0 : Z) :
  getdata img !! i = Some (r, g, b, a0) ->
  let a := match mode img with RGB => 255 | RGBA => a0 end in
  let out := make_background_transparent img 235 in
  (r >= 235 /\ g >= 235 /\ b >= 235 -> getdata out !! i = Some (r, g, b, 0)) /\
  (r < 235 \/ g < 235 \/ b < 235 -> getdata out !! i = Some (r, g, b, a)) /\
  (forall (img' : Image) (j : nat),
     getdata (convert_RGBA img') !! j = Some (r, g, b, a) ->
     getdata (make_background_transparent img' 235) !! j = getdata out !! i).
Proof.
  intros Hi a out. subst out.
  pose proof (convert_RGBA_lookup _ _ _ _ _ _ Hi) as Hc. fold a in Hc.
  rewrite make_background_transparent_lookup, Hc.
  cbn [fmap option_fmap option_map].
  split; [|split].
  - intros (Hr & Hg & Hb). rewrite transparent_rule_light by lia. reflexivity.
  - intros Hlt. rewrite transparent_rule_dark by exact Hlt. reflexivity.
  - intros img' j Hj.
    rewrite make_background_transparent_lookup, Hj. reflexivity.
Qed.

(** C10.  The transparency pass keeps width, height and pixel count, so
    the raster that reaches the resize loop is still the square of side
    [min w h] left by the crop. *)
Theorem make_background_transparent_keeps_size (img : Image) (threshold : Z) :
  im_size (make_background_transparent img threshold) = im_size img /\
  length (getdata (make_background_transparent img threshold)) =
    length (getdata img) /\
  im_size (make_background_transparent (square_crop img) threshold) =
    (Z.min (width img) (height img), Z.min (width img) (height img)).
Proof.
  split; [apply make_background_transparent_size|].
  split; [apply make_background_transparent_length|].
  rewrite make_background_transparent_size. apply square_crop_size.
Qed.

(** ** Images: what reaches the resize loop *)

Lemma crop_well_formed im x0 y0 x1 y1 :
  x0 <= x1 -> y0 <= y1 -> well_formed (crop im (x0, y0, x1, y1)).
Proof.
  intros Hx Hy. unfold well_formed, width, height, crop.
  cbn [im_size getdata fst snd].
  split; [lia|]. split; [lia|].
  rewrite length_map, length_seqZ. rewrite Z2Nat.id by nia. reflexivity.
Qed.

Lemma square_crop_well_formed im :
  well_formed im -> well_formed (square_crop im).
Proof.
  intros (Hw & Hh & Hlen). unfold square_crop.
  unfold width, height in Hw, Hh.
  destruct (im_size im) as [w h] eqn:Hsz. cbn [fst snd] in Hw, Hh.
  destruct (Z.eqb_spec w h) as [->|Hne]; cbn [negb].
  - unfold well_formed, width, height. rewrite Hsz. cbn [fst snd].
    unfold width, height in Hlen. rewrite Hsz in Hlen. auto.
  - destruct (crop_box w h) as [[[x0 y0] x1] y1] eqn:Hbox.
    destruct (crop_box_inside w h x0 y0 x1 y1 Hw Hh Hbox) as (? & _ & ? & _).
    apply crop_well_formed; lia.
Qed.

Lemma convert_RGB_well_formed im :
  well_formed im -> well_formed (convert_RGB im).
Proof.
  unfold well_formed, width, height, convert_RGB. cbn [im_size getdata].
  rewrite length_map. auto.
Qed.

Lemma make_background_transparent_well_formed im threshold :
  well_formed im -> well_formed (make_background_transparent im threshold).
Proof.
  unfold well_formed, width, height.
  rewrite make_background_transparent_size,
          make_background_transparent_length. auto.
Qed.

Lemma make_background_transparent_mode im threshold :
  mode (make_background_transparent im threshold) = RGBA.
Proof.
  unfold make_background_transparent, putdata, convert_RGBA. cbn [mode].
  destruct (mode im) eqn:Hm; [reflexivity | exact Hm].
Qed.

(** The raster handed to the resize loop is a well-formed RGBA square. *)
Lemma prepared_is_rgba_square src :
  well_formed src ->
  well_formed (prepared src) /\
  mode (prepared src) = RGBA /\
  im_size (prepared src) =
    (Z.min (width src) (height src), Z.min (width src) (height src)).
Proof.
  intros Hwf. unfold prepared. split; [|split].
  - apply make_background_transparent_well_formed, square_crop_well_formed,
      convert_RGB_well_formed, Hwf.
  - apply make_background_transparent_mode.
  - rewrite make_background_transparent_size, square_crop_size. reflexivity.
Qed.

(** On the 4 x 2 sample image: the two middle columns are kept, and the one
    pixel with all three channels at 235 or more loses its opacity. *)
Example prepared_Raw_image :
  prepared Raw.image =
    mkImage RGBA (2, 2)
      [(16, 32, 128, 255); (240, 235, 245, 0);
       (234, 255, 255, 255); (0, 0, 0, 255)].
Proof. vm_compute. reflexivity. Qed.

(** ** Worlds and primitives *)

(** Reduce the projections of an explicit world or result pair, and nothing
    else. *)
Tactic Notation "simpl_world" :=
  cbn [dirs files stdout resize_calls fst snd].
Tactic Notation "simpl_world" "in" ne_hyp_list(Hs) :=
  cbn [dirs files stdout resize_calls fst snd] in Hs.

Lemma World_eq (a b : World) :
  dirs a = dirs b -> files a = files b -> stdout a = stdout b ->
  resize_calls a = resize_calls b -> a = b.
Proof. destruct a, b. simpl. intros -> -> -> ->. reflexivity. Qed.

Lemma mkdir_Ok p w w' :
  mkdir_parents_exist_ok p w = (Ok tt, w') ->
  mkdir_clear p w /\
  w' = mkWorld (list_to_set (ancestors_and_self p) ∪ dirs w)
               (files w) (stdout w) (resize_calls w).
Proof.
  unfold mkdir_parents_exist_ok, mkdir_clear.
  destruct (decide (is_Some (files w !! p))) as [?|Hp]; [discriminate|].
  destruct (existsb _ _) eqn:Hex; [discriminate|].
  intros E. inversion E; subst; clear E. split; [split|reflexivity].
  - apply eq_None_not_Some. exact Hp.
  - intros q Hq. apply eq_None_not_Some. intros Hs.
    assert (existsb (fun q => bool_decide (is_Some (files w !! q)))
                    (ancestors_and_self p) = true) as Ht; [|congruence].
    apply existsb_exists. exists q. split.
    + apply list_elem_of_In. exact Hq.
    + apply bool_decide_eq_true_2. exact Hs.
Qed.

Lemma mkdir_succeeds p w :
  mkdir_clear p w ->
  mkdir_parents_exist_ok p w =
    (Ok tt, mkWorld (list_to_set (ancestors_and_self p) ∪ dirs w)
                    (files w) (stdout w) (resize_calls w)).
Proof.
  intros [Hp Hq]. unfold mkdir_parents_exist_ok.
  destruct (decide (is_Some (files w !! p))) as [Hs|_].
  { rewrite Hp in Hs. destruct Hs; discriminate. }
  destruct (existsb _ _) eqn:Hex; [|reflexivity].
  apply existsb_exists in Hex as (q & Hin & Hb).
  apply list_elem_of_In in Hin. apply bool_decide_eq_true_1 in Hb.
  rewrite (Hq q Hin) in Hb. destruct Hb; discriminate.
Qed.

(** [mkdir] touches directories only, and only adds. *)
Lemma mkdir_frame p w :
  files (snd (mkdir_parents_exist_ok p w)) = files w /\
  stdout (snd (mkdir_parents_exist_ok p w)) = stdout w /\
  resize_calls (snd (mkdir_parents_exist_ok p w)) = resize_calls w /\
  dirs w ⊆ dirs (snd (mkdir_parents_exist_ok p w)).
Proof.
  unfold mkdir_parents_exist_ok.
  destruct (decide _); [simpl; set_solver|].
  destruct (existsb _ _); simpl; set_solver.
Qed.

Section Primitives.

Context `{Codec}.

Lemma Image_open_frame p w : snd (Image_open p w) = w.
Proof.
  unfold Image_open. destruct (files w !! p) as [bytes|].
  - destruct (decode bytes); reflexivity.
  - destruct (decide _); reflexivity.
Qed.

Lemma Image_open_Ok p w im w' :
  Image_open p w = (Ok im, w') ->
  w' = w /\ exists bytes, files w !! p = Some bytes /\ decode bytes = Some im.
Proof.
  unfold Image_open. destruct (files w !! p) as [bytes|].
  - destruct (decode bytes) as [im0|] eqn:Hd; intros E; inversion E; subst.
    split; [reflexivity|]. exists bytes. split; [reflexivity | exact Hd].
  - destruct (decide _); discriminate.
Qed.

Lemma Image_open_unreadable p w :
  unreadable p w -> exists e, Image_open p w = (Raise e, w).
Proof.
  unfold Image_open. intros [Hn | (bytes & Hb & Hd)].
  - rewrite Hn. destruct (decide _); eauto.
  - rewrite Hb, Hd. eauto.
Qed.

Lemma save_Ok im p w w' :
  save im p w = (Ok tt, w') ->
  (p ∉ dirs w) /\ parent p ∈ dirs w /\
  w' = mkWorld (dirs w) (<[p := png_encode im]> (files w))
               (stdout w) (resize_calls w).
Proof.
  unfold save. destruct (decide (p ∈ dirs w)); [discriminate|].
  destruct (decide (parent p ∈ dirs w)); [|discriminate].
  intros E. inversion E. auto.
Qed.

Lemma save_succeeds im p w :
  p ∉ dirs w -> parent p ∈ dirs w ->
  save im p w =
    (Ok tt, mkWorld (dirs w) (<[p := png_encode im]> (files w))
                    (stdout w) (resize_calls w)).
Proof.
  intros Hp Hpar. unfold save.
  destruct (decide (p ∈ dirs w)); [contradiction|].
  destruct (decide (parent p ∈ dirs w)); [reflexivity | contradiction].
Qed.

Lemma save_frame im p w :
  dirs (snd (save im p w)) = dirs w /\
  resize_calls (snd (save im p w)) = resize_calls w.
Proof.
  unfold save. destruct (decide _); [auto|]. destruct (decide _); auto.
Qed.

End Primitives.

(** ** The loop over the size table *)

Lemma first_seen_cons seen s rest :
  map (fun s => (s, s)) (first_seen seen (s :: rest)) =
    (if decide (s ∈ seen) then [] else [(s, s)]) ++
    map (fun s => (s, s)) (first_seen ({[s]} ∪ seen) rest).
Proof.
  simpl. destruct (decide (s ∈ seen)) as [Hin|Hnin]; [|reflexivity].
  replace ({[s]} ∪ seen) with seen by set_solver. reflexivity.
Qed.

(** New sizes are pairwise distinct and are exactly the sizes of the table
    that were not cached. *)
Lemma first_seen_spec l : forall seen,
  NoDup (first_seen seen l) /\
  forall s, s ∈ first_seen seen l <-> s ∈ l /\ s ∉ seen.
Proof.
  induction l as [|a l IH]; intros seen; simpl.
  - split; [constructor|]. intros s. split; [intros Hs; inversion Hs|].
    intros [Hs _]. inversion Hs.
  - destruct (decide (a ∈ seen)) as [Hin|Hnin].
    + destruct (IH seen) as [Hnd Hiff]. split; [exact Hnd|].
      intros s. rewrite Hiff. set_solver.
    + destruct (IH ({[a]} ∪ seen)) as [Hnd Hiff]. split.
      * constructor; [|exact Hnd]. rewrite Hiff. set_solver.
      * intros s. rewrite elem_of_cons, Hiff.
        destruct (decide (s = a)) as [->|Hne]; set_solver.
Qed.

Section Loop.

Context `{Codec}.

Lemma write_all_app outs1 outs2 fs :
  write_all (outs1 ++ outs2) fs = write_all outs2 (write_all outs1 fs).
Proof. unfold write_all. apply foldl_app. Qed.

Lemma outputs_cons im od size names rest :
  outputs im od ((size, names) :: rest) =
    map (fun name => (joinpath od name, png_encode (resized im (size, size))))
        names ++ outputs im od rest.
Proof. reflexivity. Qed.

Lemma outputs_paths im od l :
  map fst (outputs im od l) = map (joinpath od) (filenames l).
Proof.
  induction l as [|[size names] rest IH]; [reflexivity|].
  rewrite outputs_cons. unfold filenames in *. simpl.
  rewrite !map_app, IH. f_equal.
  rewrite map_map. reflexivity.
Qed.

Lemma for_sizes_cons im od size names rest seen :
  for_sizes im od ((size, names) :: rest) seen =
    (seen' <- cache_step im size seen ;;
     save_loop od size names seen' ;;;
     for_sizes im od rest seen').
Proof. reflexivity. Qed.

Lemma save_loop_cons od size name names seen :
  save_loop od size (name :: names) seen =
    ((match seen !! size with
      | Some r => save r (joinpath od name)
      | None => raise KeyError
      end ;;; print (joinpath od name)) ;;;
     save_loop od size names seen).
Proof. reflexivity. Qed.

(** A complete pass over one entry's filenames writes each of them, in
    order, and needed every path free of a directory. *)
Lemma save_loop_Ok od size names seen r : forall w w',
  seen !! size = Some r ->
  save_loop od size names seen w = (Ok tt, w') ->
  dirs w' = dirs w /\
  files w' =
    write_all (map (fun n => (joinpath od n, png_encode r)) names) (files w) /\
  stdout w' = stdout w ++ map (joinpath od) names /\
  resize_calls w' = resize_calls w /\
  (forall n, n ∈ names -> joinpath od n ∉ dirs w).
Proof.
  induction names as [|n names IH]; intros w w' Hr Hrun.
  - inversion Hrun; subst. rewrite app_nil_r.
    repeat split; try reflexivity. intros n Hn. inversion Hn.
  - rewrite save_loop_cons in Hrun.
    apply bind_Ok in Hrun as ([] & w2 & Hbody & Hrest).
    apply bind_Ok in Hbody as ([] & w1 & Hsave & Hprint).
    rewrite Hr in Hsave. apply save_Ok in Hsave as (Hfree & _ & ->).
    inversion Hprint; subst w2; clear Hprint.
    destruct (IH _ _ Hr Hrest) as (Hd & Hf & Ho & Hc & Hfree').
    simpl in *. rewrite Hd, Hf, Ho, Hc.
    rewrite <- app_assoc. repeat split; try reflexivity.
    intros n' Hn'. apply elem_of_cons in Hn' as [-> | Hn']; auto.
Qed.

Lemma save_loop_succeeds od size names seen r : forall w,
  seen !! size = Some r ->
  od ∈ dirs w ->
  (forall n, n ∈ names -> joinpath od n ∉ dirs w) ->
  exists w', save_loop od size names seen w = (Ok tt, w').
Proof.
  induction names as [|n names IH]; intros w Hr Hod Hfree.
  - exists w. reflexivity.
  - rewrite save_loop_cons.
    assert (Hn : joinpath od n ∉ dirs w) by (apply Hfree; left).
    pose proof (save_succeeds r _ w Hn) as Hsave.
    rewrite parent_joinpath in Hsave. specialize (Hsave Hod).
    set (w1 := mkWorld (dirs w)
                       (<[joinpath od n := png_encode r]> (files w))
                       (stdout w ++ [joinpath od n]) (resize_calls w)).
    assert (Hbody : (match seen !! size with
                     | Some r => save r (joinpath od n)
                     | None => raise KeyError
                     end ;;; print (joinpath od n)) w = (Ok tt, w1)).
    { rewrite Hr. rewrite (bind_Ok_intro _ _ _ _ _ Hsave). reflexivity. }
    destruct (IH w1 Hr Hod) as [w' Hw'].
    { intros n' Hn'. apply Hfree. right. exact Hn'. }
    exists w'. rewrite (bind_Ok_intro _ _ _ _ _ Hbody). exact Hw'.
Qed.

(** Saving never touches the directories or the record of resize calls,
    whether it completes or raises. *)
Lemma save_loop_frame od size names seen : forall w,
  dirs (snd (save_loop od size names seen w)) = dirs w /\
  resize_calls (snd (save_loop od size names seen w)) = resize_calls w.
Proof.
  induction names as [|n names IH]; intros w; [split; reflexivity|].
  rewrite save_loop_cons.
  destruct ((match seen !! size with
             | Some r => save r (joinpath od n)
             | None => raise KeyError
             end ;;; print (joinpath od n)) w) as [[[]|e] w2] eqn:Hbody.
  - rewrite (bind_Ok_intro _ _ _ _ _ Hbody).
    apply bind_Ok in Hbody as ([] & w1 & Hsave & Hprint).
    inversion Hprint; subst w2; clear Hprint.
    destruct (IH (mkWorld (dirs w1) (files w1)
                          (stdout w1 ++ [joinpath od n]) (resize_calls w1)))
      as [Hd Hc].
    rewrite Hd, Hc. simpl.
    destruct (seen !! size) as [r|]; [|discriminate].
    pose proof (save_frame r (joinpath od n) w) as [Hd1 Hc1].
    rewrite Hsave in Hd1, Hc1. auto.
  - rewrite (bind_Raise_intro _ _ _ _ _ Hbody). simpl.
    unfold bind in Hbody.
    destruct (seen !! size) as [r|].
    + pose proof (save_frame r (joinpath od n) w) as [Hd1 Hc1].
      destruct (save r (joinpath od n) w) as [[[]|e1] w1].
      * discriminate.
      * inversion Hbody; subst. auto.
    + inversion Hbody; subst. auto.
Qed.

Lemma cache_sound_empty im : cache_sound im ∅.
Proof. intros s r Hs. rewrite lookup_empty in Hs. discriminate. Qed.

(** Lines 65-67: after them the cache holds the resize of [im] at [size];
    [Image.resize] was called exactly when the size was new. *)
Lemma cache_step_spec im size seen w :
  cache_sound im seen ->
  exists seen' w1,
    cache_step im size seen w = (Ok seen', w1) /\
    cache_sound im seen' /\
    seen' !! size = Some (resized im (size, size)) /\
    dom seen' = {[size]} ∪ dom seen /\
    dirs w1 = dirs w /\ files w1 = files w /\ stdout w1 = stdout w /\
    resize_calls w1 =
      resize_calls w ++
      (if decide (size ∈ dom seen) then [] else [(size, size)]).
Proof.
  intros Hsound. unfold cache_step.
  destruct (seen !! size) as [r|] eqn:Hs.
  - exists seen, w. pose proof (Hsound _ _ Hs) as ->.
    assert (Hin : size ∈ dom seen) by (apply elem_of_dom; eauto).
    destruct (decide (size ∈ dom seen)); [|contradiction].
    rewrite app_nil_r. repeat split; auto.
    apply set_eq. intros x. rewrite elem_of_union, elem_of_singleton.
    split; [auto | intros [->|]; auto].
  - eexists _, _. split; [reflexivity|].
    assert (Hnin : size ∉ dom seen) by (apply not_elem_of_dom; exact Hs).
    destruct (decide (size ∈ dom seen)); [contradiction|].
    split; [|split; [|split]]; simpl; auto.
    + intros s r Hr. destruct (decide (size = s)) as [->|Hne].
      * rewrite lookup_insert_eq in Hr. congruence.
      * rewrite lookup_insert_ne in Hr by exact Hne. apply Hsound, Hr.
    + apply lookup_insert_eq.
    + apply dom_insert_L.
Qed.

(** A complete pass over a size table, in closed form. *)
Lemma for_sizes_Ok im od l : forall seen w w',
  cache_sound im seen ->
  for_sizes im od l seen w = (Ok tt, w') ->
  dirs w' = dirs w /\
  files w' = write_all (outputs im od l) (files w) /\
  stdout w' = stdout w ++ map fst (outputs im od l) /\
  resize_calls w' =
    resize_calls w ++
    map (fun s => (s, s)) (first_seen (dom seen) (map fst l)) /\
  (forall n, n ∈ filenames l -> joinpath od n ∉ dirs w).
Proof.
  induction l as [|[size names] rest IH]; intros seen w w' Hsound Hrun.
  - inversion Hrun; subst. simpl. rewrite !app_nil_r.
    repeat split; try reflexivity. intros n Hn. inversion Hn.
  - rewrite for_sizes_cons in Hrun.
    destruct (cache_step_spec im size seen w Hsound)
      as (seen' & w1 & Hstep & Hsound' & Hhit & Hdom & Hd1 & Hf1 & Ho1 & Hc1).
    rewrite (bind_Ok_intro _ _ _ _ _ Hstep) in Hrun.
    apply bind_Ok in Hrun as ([] & w2 & Hsave & Hrest).
    destruct (save_loop_Ok _ _ _ _ _ _ _ Hhit Hsave)
      as (Hd2 & Hf2 & Ho2 & Hc2 & Hfree2).
    destruct (IH _ _ _ Hsound' Hrest) as (Hd3 & Hf3 & Ho3 & Hc3 & Hfree3).
    rewrite outputs_cons, write_all_app, map_app.
    change (map fst ((size, names) :: rest)) with (size :: map fst rest).
    rewrite first_seen_cons.
    rewrite Hd3, Hf3, Ho3, Hc3, Hd2, Hf2, Ho2, Hc2, Hd1, Hf1, Ho1, Hc1, Hdom.
    rewrite map_map. simpl. rewrite <- !app_assoc.
    repeat split; try reflexivity.
    intros n Hn. unfold filenames in Hn. simpl in Hn.
    apply elem_of_app in Hn as [Hn | Hn].
    + rewrite <- Hd1. apply Hfree2, Hn.
    + rewrite <- Hd1, <- Hd2. apply Hfree3, Hn.
Qed.

(** The pass completes as soon as the output directory exists and no
    output path is a directory. *)
Lemma for_sizes_succeeds im od l : forall seen w,
  cache_sound im seen ->
  od ∈ dirs w ->
  (forall n, n ∈ filenames l -> joinpath od n ∉ dirs w) ->
  exists w', for_sizes im od l seen w = (Ok tt, w').
Proof.
  induction l as [|[size names] rest IH]; intros seen w Hsound Hod Hfree.
  - exists w. reflexivity.
  - rewrite for_sizes_cons.
    destruct (cache_step_spec im size seen w Hsound)
      as (seen' & w1 & Hstep & Hsound' & Hhit & _ & Hd1 & _).
    rewrite (bind_Ok_intro _ _ _ _ _ Hstep).
    assert (Hfree' : forall n, n ∈ names ++ filenames rest ->
                               joinpath od n ∉ dirs w1).
    { intros n Hn. rewrite Hd1. apply Hfree, Hn. }
    destruct (save_loop_succeeds od size names seen' _ w1 Hhit)
      as [w2 Hsave].
    { rewrite Hd1. exact Hod. }
    { intros n Hn. apply Hfree', elem_of_app. left. exact Hn. }
    rewrite (bind_Ok_intro _ _ _ _ _ Hsave).
    pose proof (save_loop_frame od size names seen' w1) as [Hd2 _].
    rewrite Hsave in Hd2. simpl in Hd2.
    apply (IH seen' w2 Hsound').
    + rewrite Hd2, Hd1. exact Hod.
    + intros n Hn. rewrite Hd2. apply Hfree', elem_of_app. right. exact Hn.
Qed.

(** Whether the pass completes or raises, it leaves the directories alone
    and has called [Image.resize] on an initial part of the new sizes. *)
Lemma for_sizes_frame im od l : forall seen w,
  cache_sound im seen ->
  dirs (snd (for_sizes im od l seen w)) = dirs w /\
  exists k,
    resize_calls (snd (for_sizes im od l seen w)) =
      resize_calls w ++
      take k (map (fun s => (s, s)) (first_seen (dom seen) (map fst l))).
Proof.
  induction l as [|[size names] rest IH]; intros seen w Hsound.
  - split; [reflexivity|]. exists 0%nat. simpl. rewrite app_nil_r. reflexivity.
  - rewrite for_sizes_cons.
    destruct (cache_step_spec im size seen w Hsound)
      as (seen' & w1 & Hstep & Hsound' & Hhit & Hdom & Hd1 & _ & _ & Hc1).
    rewrite (bind_Ok_intro _ _ _ _ _ Hstep).
    change (map fst ((size, names) :: rest)) with (size :: map fst rest).
    rewrite first_seen_cons.
    set (new := if decide (size ∈ dom seen) then [] else [(size, size)]) in *.
    pose proof (save_loop_frame od size names seen' w1) as [Hd2 Hc2].
    destruct (save_loop od size names seen' w1) as [[[]|e] w2] eqn:Hsave;
      simpl in Hd2, Hc2.
    + rewrite (bind_Ok_intro _ _ _ _ _ Hsave).
      destruct (IH seen' w2 Hsound') as (Hd3 & k & Hc3).
      split; [congruence|].
      exists (length new + k)%nat.
      rewrite Hc3, Hc2, Hc1, Hdom, <- app_assoc, take_app_add.
      reflexivity.
    + rewrite (bind_Raise_intro _ _ _ _ _ Hsave). simpl.
      split; [congruence|].
      exists (length new). rewrite Hc2, Hc1, take_app_length. reflexivity.
Qed.

End Loop.

(** ** Files written *)

Section Files.

Context `{Codec}.

Lemma write_all_lookup_notin outs : forall fs p,
  p ∉ map fst outs -> write_all outs fs !! p = fs !! p.
Proof.
  induction outs as [|[q c] rest IH]; intros fs p Hp; [reflexivity|].
  simpl in *. apply not_elem_of_cons in Hp as [Hne Hrest].
  unfold write_all in *. simpl. rewrite IH by exact Hrest.
  apply lookup_insert_ne. congruence.
Qed.

Lemma write_all_lookup_in outs : forall fs p b,
  NoDup (map fst outs) -> (p, b) ∈ outs -> write_all outs fs !! p = Some b.
Proof.
  induction outs as [|[q c] rest IH]; intros fs p b Hnd Hin.
  - inversion Hin.
  - simpl in Hnd. apply NoDup_cons in Hnd as [Hq Hnd].
    change (write_all ((q, c) :: rest) fs)
      with (write_all rest (<[q := c]> fs)).
    apply elem_of_cons in Hin as [E | Hin].
    + inversion E; subst. rewrite write_all_lookup_notin by exact Hq.
      apply lookup_insert_eq.
    + apply IH; assumption.
Qed.

Lemma write_all_dom outs : forall fs,
  dom (write_all outs fs) = list_to_set (map fst outs) ∪ dom fs.
Proof.
  induction outs as [|[q c] rest IH]; intros fs.
  - simpl. apply set_eq. intros x. rewrite elem_of_union, elem_of_empty. tauto.
  - change (write_all ((q, c) :: rest) fs)
      with (write_all rest (<[q := c]> fs)).
    rewrite IH, dom_insert_L. simpl.
    apply set_eq. intros x. rewrite !elem_of_union. tauto.
Qed.

(** Writing the same pairs a second time changes nothing. *)
Lemma write_all_idempotent outs fs :
  NoDup (map fst outs) ->
  write_all outs (write_all outs fs) = write_all outs fs.
Proof.
  intros Hnd. apply map_eq. intros p.
  destruct (decide (p ∈ map fst outs)) as [Hin|Hnin].
  - apply list_elem_of_fmap in Hin as ([p' b] & -> & Hin). simpl.
    rewrite !(write_all_lookup_in outs _ p' b) by assumption. reflexivity.
  - rewrite write_all_lookup_notin by exact Hnin. reflexivity.
Qed.

Lemma outputs_elem im od l size names name :
  (size, names) ∈ l -> name ∈ names ->
  (joinpath od name, png_encode (resized im (size, size))) ∈ outputs im od l.
Proof.
  intros Hl Hn. unfold outputs. apply list_elem_of_In, in_flat_map.
  exists (size, names). split; [apply list_elem_of_In, Hl|].
  apply (in_map (fun name => (joinpath od name,
                              png_encode (resized im (size, size))))).
  apply list_elem_of_In, Hn.
Qed.

Lemma filenames_elem l size names name :
  (size, names) ∈ l -> name ∈ names -> name ∈ filenames l.
Proof.
  intros Hl Hn. unfold filenames. apply list_elem_of_In, in_flat_map.
  exists (size, names). split; [apply list_elem_of_In, Hl|].
  apply list_elem_of_In, Hn.
Qed.

Lemma outputs_NoDup im od l :
  NoDup (filenames l) -> NoDup (map fst (outputs im od l)).
Proof.
  intros Hnd. rewrite outputs_paths.
  change (NoDup (joinpath od <$> filenames l)).
  apply NoDup_fmap_2_strong; [|exact Hnd].
  intros n1 n2 _ _. apply joinpath_inj.
Qed.

End Files.

(** ** The size table *)

Lemma filenames_SIZES_NoDup : NoDup (filenames SIZES).
Proof. apply (bool_decide_unpack _). vm_compute. exact I. Qed.

Lemma filenames_SIZES_length : length (filenames SIZES) = 28%nat.
Proof. reflexivity. Qed.

Lemma SIZES_length : length SIZES = 22%nat.
Proof. reflexivity. Qed.

Lemma first_seen_SIZES :
  first_seen ∅ (map fst SIZES) =
    [20; 40; 60; 29; 58; 87; 80; 120; 180; 76; 152; 167; 1024;
     16; 32; 64; 128; 256; 512].
Proof. vm_compute. reflexivity. Qed.

Lemma SRC_not_a_filename :
  exists name, last SRC = Some name /\ name ∉ filenames SIZES.
Proof.
  exists "image-0df30865-3908-4db0-b81c-4bba4cb06804.png"%string.
  split; [reflexivity|].
  apply (bool_decide_unpack _). vm_compute. exact I.
Qed.

(** ** The whole run *)

Section Main.

Context `{Codec}.
Variable REPO : Path.

Lemma main_unfold :
  main REPO =
    (mkdir_parents_exist_ok (OUT_DIR REPO) ;;;
     src <- Image_open SRC ;;
     for_sizes (prepared src) (OUT_DIR REPO) SIZES ∅).
Proof. reflexivity. Qed.

Lemma OUT_DIR_is_dir_after_mkdir :
  OUT_DIR REPO ∈ ancestors_and_self (OUT_DIR REPO).
Proof.
  apply ancestors_and_self_self. unfold OUT_DIR.
  destruct REPO; discriminate.
Qed.

Lemma SRC_not_output name :
  name ∈ filenames SIZES -> joinpath (OUT_DIR REPO) name <> SRC.
Proof.
  intros Hn E. destruct SRC_not_a_filename as (src_name & Hlast & Hnot).
  apply (f_equal last) in E. rewrite joinpath_last, Hlast in E.
  inversion E; subst. contradiction.
Qed.

(** A complete run read a decodable source and left [final_world]. *)
Lemma main_Ok w w' :
  main REPO w = (Ok tt, w') ->
  exists bytes src,
    files w !! SRC = Some bytes /\ decode bytes = Some src /\
    w' = final_world REPO src w /\
    mkdir_clear (OUT_DIR REPO) w /\
    (forall n, n ∈ filenames SIZES -> joinpath (OUT_DIR REPO) n ∉ dirs w).
Proof.
  rewrite main_unfold. intros Hrun.
  apply bind_Ok in Hrun as ([] & w1 & Hmk & Hrun).
  apply bind_Ok in Hrun as (src & w2 & Hopen & Hloop).
  apply mkdir_Ok in Hmk as [Hclear ->].
  apply Image_open_Ok in Hopen as (-> & bytes & Hbytes & Hdec).
  simpl_world in Hbytes.
  destruct (for_sizes_Ok _ _ _ _ _ _ (cache_sound_empty _) Hloop)
    as (Hd & Hf & Ho & Hc & Hfree).
  simpl_world in Hd Hf Ho Hc Hfree. rewrite dom_empty_L in Hc.
  exists bytes, src.
  split; [exact Hbytes|]. split; [exact Hdec|].
  split; [|split; [exact Hclear|]].
  - apply World_eq; assumption.
  - intros n Hn Hin. apply (Hfree n Hn).
    apply elem_of_union. right. exact Hin.
Qed.

(** The run completes whenever the source decodes, no regular file blocks
    the output directory and no directory sits at an output path. *)
Lemma main_succeeds w bytes src :
  files w !! SRC = Some bytes -> decode bytes = Some src ->
  mkdir_clear (OUT_DIR REPO) w ->
  (forall n, n ∈ filenames SIZES -> joinpath (OUT_DIR REPO) n ∉ dirs w) ->
  main REPO w = (Ok tt, final_world REPO src w).
Proof.
  intros Hbytes Hdec Hclear Hfree.
  set (w1 := mkWorld
               (list_to_set (ancestors_and_self (OUT_DIR REPO)) ∪ dirs w)
               (files w) (stdout w) (resize_calls w)).
  assert (Hopen : Image_open SRC w1 = (Ok src, w1)).
  { unfold Image_open, w1. cbn [files]. rewrite Hbytes, Hdec. reflexivity. }
  destruct (for_sizes_succeeds (prepared src) (OUT_DIR REPO) SIZES ∅ w1
              (cache_sound_empty _)) as [w' Hloop].
  { unfold w1. cbn [dirs]. apply elem_of_union. left.
    apply elem_of_list_to_set, OUT_DIR_is_dir_after_mkdir. }
  { intros n Hn. unfold w1. cbn [dirs].
    rewrite elem_of_union, elem_of_list_to_set.
    intros [Hanc | Hdir].
    - exact (joinpath_not_ancestor _ _ Hanc).
    - exact (Hfree n Hn Hdir). }
  assert (Hrun : main REPO w = (Ok tt, w')).
  { rewrite main_unfold.
    rewrite (bind_Ok_intro _ _ _ _ _ (mkdir_succeeds _ _ Hclear)).
    fold w1. rewrite (bind_Ok_intro _ _ _ _ _ Hopen). exact Hloop. }
  rewrite Hrun. f_equal.
  destruct (main_Ok _ _ Hrun) as (bytes' & src' & Hb' & Hd' & -> & _).
  congruence.
Qed.

(** With an unreadable source the run raises; at that point it has
    created directories at most. *)
Lemma main_unreadable w :
  unreadable SRC w ->
  exists e,
    fst (main REPO w) = Raise e /\
    files (snd (main REPO w)) = files w /\
    stdout (snd (main REPO w)) = stdout w /\
    resize_calls (snd (main REPO w)) = resize_calls w /\
    (mkdir_clear (OUT_DIR REPO) w ->
     dirs (snd (main REPO w)) =
       list_to_set (ancestors_and_self (OUT_DIR REPO)) ∪ dirs w).
Proof.
  intros Hun. rewrite main_unfold.
  destruct (mkdir_parents_exist_ok (OUT_DIR REPO) w) as [[[]|e] w1] eqn:Hmk.
  - rewrite (bind_Ok_intro _ _ _ _ _ Hmk).
    apply mkdir_Ok in Hmk as [Hclear ->].
    set (w1 := mkWorld _ _ _ _).
    assert (Hun1 : unreadable SRC w1) by exact Hun.
    destruct (Image_open_unreadable _ _ Hun1) as [e He].
    rewrite (bind_Raise_intro _ _ _ _ _ He).
    exists e. simpl_world. repeat split; reflexivity.
  - rewrite (bind_Raise_intro _ _ _ _ _ Hmk).
    exists e. simpl_world.
    pose proof (mkdir_frame (OUT_DIR REPO) w) as (Hf & Ho & Hc & _).
    rewrite Hmk in Hf, Ho, Hc. simpl_world in Hf Ho Hc.
    repeat split; try assumption.
    intros Hclear. rewrite (mkdir_succeeds _ _ Hclear) in Hmk. discriminate.
Qed.

(** No run, complete or not, removes a directory. *)
Lemma main_dirs_monotone w : dirs w ⊆ dirs (snd (main REPO w)).
Proof.
  rewrite main_unfold.
  pose proof (mkdir_frame (OUT_DIR REPO) w) as (_ & _ & _ & Hmono).
  destruct (mkdir_parents_exist_ok (OUT_DIR REPO) w) as [[[]|e] w1] eqn:Hmk;
    simpl_world in Hmono.
  - rewrite (bind_Ok_intro _ _ _ _ _ Hmk).
    pose proof (Image_open_frame SRC w1) as Hfr.
    destruct (Image_open SRC w1) as [[src|e] w2] eqn:Hopen;
      simpl_world in Hfr; subst w2.
    + rewrite (bind_Ok_intro _ _ _ _ _ Hopen).
      destruct (for_sizes_frame (prepared src) (OUT_DIR REPO) SIZES ∅ w1
                  (cache_sound_empty _)) as [Hd _].
      rewrite Hd. exact Hmono.
    + rewrite (bind_Raise_intro _ _ _ _ _ Hopen). exact Hmono.
  - rewrite (bind_Raise_intro _ _ _ _ _ Hmk). exact Hmono.
Qed.

(** In any run, complete or not, [Image.resize] is called on an initial
    part of the distinct sizes, so never twice with the same size. *)
Lemma main_resize_calls_prefix w :
  exists k,
    resize_calls (snd (main REPO w)) =
      resize_calls w ++
      take k (map (fun s => (s, s)) (first_seen ∅ (map fst SIZES))).
Proof.
  rewrite main_unfold.
  pose proof (mkdir_frame (OUT_DIR REPO) w) as (_ & _ & Hc & _).
  destruct (mkdir_parents_exist_ok (OUT_DIR REPO) w) as [[[]|e] w1] eqn:Hmk;
    simpl_world in Hc.
  - rewrite (bind_Ok_intro _ _ _ _ _ Hmk).
    pose proof (Image_open_frame SRC w1) as Hfr.
    destruct (Image_open SRC w1) as [[src|e] w2] eqn:Hopen;
      simpl_world in Hfr; subst w2.
    + rewrite (bind_Ok_intro _ _ _ _ _ Hopen).
      destruct (for_sizes_frame (prepared src) (OUT_DIR REPO) SIZES ∅ w1
                  (cache_sound_empty _)) as [_ [k Hk]].
      exists k. rewrite Hk, Hc, dom_empty_L. reflexivity.
    + rewrite (bind_Raise_intro _ _ _ _ _ Hopen). exists 0%nat.
      simpl_world. rewrite app_nil_r. exact Hc.
  - rewrite (bind_Raise_intro _ _ _ _ _ Hmk). exists 0%nat.
    simpl_world. rewrite app_nil_r. exact Hc.
Qed.

End Main.

(** ** What a run writes *)

Section Run.

Context `{Codec}.
Variable REPO : Path.

(** After a complete run every listed filename holds the PNG of the
    prepared raster resized to the size of its entry. *)
Lemma main_file_contents w src size names name :
  (size, names) ∈ SIZES -> name ∈ names ->
  files (final_world REPO src w) !! joinpath (OUT_DIR REPO) name =
    Some (png_encode (resized (prepared src) (size, size))).
Proof.
  intros Hentry Hname. unfold final_world. cbn [files].
  apply write_all_lookup_in.
  - apply outputs_NoDup, filenames_SIZES_NoDup.
  - apply outputs_elem with (names := names); assumption.
Qed.

Lemma main_other_files w src p :
  p ∉ map (joinpath (OUT_DIR REPO)) (filenames SIZES) ->
  files (final_world REPO src w) !! p = files w !! p.
Proof.
  intros Hp. unfold final_world. cbn [files].
  apply write_all_lookup_notin. rewrite outputs_paths. exact Hp.
Qed.

Lemma SRC_not_written :
  SRC ∉ map (joinpath (OUT_DIR REPO)) (filenames SIZES).
Proof.
  intros Hin. apply list_elem_of_fmap in Hin as (n & E & Hn).
  exact (SRC_not_output REPO n Hn (eq_sym E)).
Qed.

Lemma ancestor_not_written q :
  q = OUT_DIR REPO \/ q ∈ ancestors_and_self (OUT_DIR REPO) ->
  q ∉ map (joinpath (OUT_DIR REPO)) (filenames SIZES).
Proof.
  intros Hq Hin. apply list_elem_of_fmap in Hin as (n & -> & Hn).
  destruct Hq as [E | Hanc].
  - apply (f_equal length) in E. unfold joinpath in E.
    rewrite length_app in E. simpl in E. lia.
  - exact (joinpath_not_ancestor _ _ Hanc).
Qed.

(** C1, as amended.  A complete run saves and prints one file per filename
    of the size table, in declaration order: 28 pairwise distinct paths in
    the output directory (the table has 22 entries, six of them with two
    filenames).  Those paths are exactly the files the run touches. *)
Theorem main_writes_every_filename (w w' : World) :
  main REPO w = (Ok tt, w') ->
  stdout w' = stdout w ++ map (joinpath (OUT_DIR REPO)) (filenames SIZES) /\
  length (map (joinpath (OUT_DIR REPO)) (filenames SIZES)) = 28%nat /\
  NoDup (map (joinpath (OUT_DIR REPO)) (filenames SIZES)) /\
  length SIZES = 22%nat /\
  dom (files w') =
    list_to_set (map (joinpath (OUT_DIR REPO)) (filenames SIZES)) ∪
    dom (files w) /\
  (forall p, p ∉ map (joinpath (OUT_DIR REPO)) (filenames SIZES) ->
             files w' !! p = files w !! p).
Proof.
  intros Hrun. apply main_Ok in Hrun as (bytes & src & _ & _ & -> & _).
  split; [|split; [|split; [|split; [|split]]]].
  - unfold final_world. cbn [stdout]. rewrite outputs_paths. reflexivity.
  - rewrite length_map. apply filenames_SIZES_length.
  - rewrite <- (outputs_paths (prepared src)).
    apply outputs_NoDup, filenames_SIZES_NoDup.
  - apply SIZES_length.
  - unfold final_world. cbn [files].
    rewrite write_all_dom, outputs_paths. reflexivity.
  - intros p Hp. apply main_other_files, Hp.
Qed.

(** C4.  A complete run calls [Image.resize] once for each of the 19
    distinct sizes of the table, at the size's first occurrence and in that
    order, and never for a repeated size (40, 120 and 1024 occur twice);
    every filename of every entry, repeated size or not, is written with
    the PNG of the raster resized for its size. *)
Theorem resize_once_per_distinct_size (w w' : World) :
  main REPO w = (Ok tt, w') ->
  let called := [20; 40; 60; 29; 58; 87; 80; 120; 180; 76; 152; 167; 1024;
                 16; 32; 64; 128; 256; 512] in
  resize_calls w' = resize_calls w ++ map (fun s => (s, s)) called /\
  NoDup called /\
  (forall s, s ∈ called <-> s ∈ map fst SIZES) /\
  exists bytes src,
    files w !! SRC = Some bytes /\ decode bytes = Some src /\
    forall size names name,
      (size, names) ∈ SIZES -> name ∈ names ->
      files w' !! joinpath (OUT_DIR REPO) name =
        Some (png_encode (resized (prepared src) (size, size))).
Proof.
  intros Hrun called.
  apply main_Ok in Hrun as (bytes & src & Hbytes & Hdec & -> & _).
  assert (Hcalled : first_seen ∅ (map fst SIZES) = called)
    by apply first_seen_SIZES.
  destruct (first_seen_spec (map fst SIZES) ∅) as [Hnd Hiff].
  rewrite Hcalled in Hnd, Hiff.
  split; [|split; [exact Hnd|split]].
  - unfold final_world. cbn [resize_calls]. rewrite Hcalled. reflexivity.
  - intros s. rewrite Hiff. split; [tauto|]. intros Hs. split; [exact Hs|].
    apply not_elem_of_empty.
  - exists bytes, src. split; [exact Hbytes|]. split; [exact Hdec|].
    intros size names name. apply main_file_contents.
Qed.

(** C5.  After a complete run, every filename of every entry of the size
    table is a file of the output directory, and the image it holds is
    size x size pixels. *)
Theorem every_file_has_its_size (w w' : World) :
  main REPO w = (Ok tt, w') ->
  OUT_DIR REPO ∈ dirs w' /\
  forall size names name,
    (size, names) ∈ SIZES -> name ∈ names ->
    parent (joinpath (OUT_DIR REPO) name) = OUT_DIR REPO /\
    exists img,
      files w' !! joinpath (OUT_DIR REPO) name = Some (png_encode img) /\
      im_size img = (size, size).
Proof.
  intros Hrun. apply main_Ok in Hrun as (bytes & src & _ & _ & -> & _).
  split.
  - unfold final_world. cbn [dirs]. apply elem_of_union. left.
    apply elem_of_list_to_set, OUT_DIR_is_dir_after_mkdir.
  - intros size names name Hentry Hname.
    split; [apply parent_joinpath|].
    exists (resized (prepared src) (size, size)).
    split; [|reflexivity].
    apply main_file_contents with (names := names); assumption.
Qed.

(** C6.  After a complete run, two filenames listed under the same pixel
    size hold the same bytes. *)
Theorem same_size_same_bytes (w w' : World) (size : Z)
    (names1 names2 : list string) (name1 name2 : string) :
  main REPO w = (Ok tt, w') ->
  (size, names1) ∈ SIZES -> name1 ∈ names1 ->
  (size, names2) ∈ SIZES -> name2 ∈ names2 ->
  is_Some (files w' !! joinpath (OUT_DIR REPO) name1) /\
  files w' !! joinpath (OUT_DIR REPO) name1 =
    files w' !! joinpath (OUT_DIR REPO) name2.
Proof.
  intros Hrun He1 Hn1 He2 Hn2.
  apply main_Ok in Hrun as (bytes & src & _ & _ & -> & _).
  rewrite (main_file_contents w src size names1 name1 He1 Hn1).
  rewrite (main_file_contents w src size names2 name2 He2 Hn2).
  split; [eexists|]; reflexivity.
Qed.

End Run.

(** ** Running again, and runs that fail *)

Section Rerun.

Context `{Codec}.
Variable REPO : Path.

(** The world left by a complete run lets the next run complete too. *)
Lemma final_world_runs_again w bytes src :
  files w !! SRC = Some bytes -> decode bytes = Some src ->
  mkdir_clear (OUT_DIR REPO) w ->
  (forall n, n ∈ filenames SIZES -> joinpath (OUT_DIR REPO) n ∉ dirs w) ->
  main REPO (final_world REPO src w) =
    (Ok tt, final_world REPO src (final_world REPO src w)).
Proof.
  intros Hbytes Hdec [Hout Hanc] Hfree.
  apply main_succeeds with (bytes := bytes).
  - rewrite main_other_files by apply SRC_not_written. exact Hbytes.
  - exact Hdec.
  - split.
    + rewrite main_other_files by (apply ancestor_not_written; auto).
      exact Hout.
    + intros q Hq.
      rewrite main_other_files by (apply ancestor_not_written; auto).
      apply Hanc, Hq.
  - intros n Hn. unfold final_world. cbn [dirs].
    rewrite elem_of_union, elem_of_list_to_set. intros [Ha | Hd].
    + exact (joinpath_not_ancestor _ _ Ha).
    + exact (Hfree n Hn Hd).
Qed.

Lemma final_world_twice src w :
  files (final_world REPO src (final_world REPO src w)) =
    files (final_world REPO src w) /\
  dirs (final_world REPO src (final_world REPO src w)) =
    dirs (final_world REPO src w).
Proof.
  unfold final_world. cbn [files dirs]. split.
  - apply write_all_idempotent, outputs_NoDup, filenames_SIZES_NoDup.
  - apply set_eq. intros q. rewrite !elem_of_union. tauto.
Qed.

(** C7.  A second run on the world a complete run left completes as well
    and leaves every file and directory as the first run left them; and
    any two complete runs whose source files hold the same bytes write the
    same bytes under every filename. *)
Theorem main_idempotent (w w1 : World) :
  main REPO w = (Ok tt, w1) ->
  (exists w2,
     main REPO w1 = (Ok tt, w2) /\ files w2 = files w1 /\ dirs w2 = dirs w1) /\
  (forall (v v1 : World) (name : string),
     files v !! SRC = files w !! SRC ->
     main REPO v = (Ok tt, v1) ->
     name ∈ filenames SIZES ->
     is_Some (files w1 !! joinpath (OUT_DIR REPO) name) /\
     files v1 !! joinpath (OUT_DIR REPO) name =
       files w1 !! joinpath (OUT_DIR REPO) name).
Proof.
  intros Hrun.
  apply main_Ok in Hrun as (bytes & src & Hbytes & Hdec & -> & Hclear & Hfree).
  split.
  - exists (final_world REPO src (final_world REPO src w)).
    split; [|apply final_world_twice].
    apply final_world_runs_again with (bytes := bytes); assumption.
  - intros v v1 name Hsame Hrun' Hname.
    apply main_Ok in Hrun' as (bytes' & src' & Hbytes' & Hdec' & -> & _).
    assert (src' = src) as -> by congruence.
    unfold filenames in Hname.
    apply list_elem_of_In, in_flat_map in Hname as ([size names] & Hentry & Hn).
    apply list_elem_of_In in Hentry. apply list_elem_of_In in Hn.
    rewrite (main_file_contents REPO w src size names name Hentry Hn).
    rewrite (main_file_contents REPO v src size names name Hentry Hn).
    split; [eexists|]; reflexivity.
Qed.

(** C8.  When no file is at the source path, or its bytes do not decode,
    the run ends with an exception and the files are exactly those it
    started with: none created, none modified, nothing printed and nothing
    resized. *)
Theorem unreadable_source_writes_nothing (w : World) :
  unreadable SRC w ->
  exists e,
    fst (main REPO w) = Raise e /\
    files (snd (main REPO w)) = files w /\
    stdout (snd (main REPO w)) = stdout w /\
    resize_calls (snd (main REPO w)) = resize_calls w.
Proof.
  intros Hun.
  destruct (main_unreadable REPO w Hun) as (e & He & Hf & Ho & Hc & _).
  exists e. auto.
Qed.

(** C9.  The output directory is created before the source is opened: a
    run that fails on an unreadable source still leaves the output
    directory and all its ancestors in place; and no run, failed or
    complete, removes a directory. *)
Theorem output_dir_created_despite_failure (w : World) :
  unreadable SRC w ->
  mkdir_clear (OUT_DIR REPO) w ->
  (exists e, fst (main REPO w) = Raise e) /\
  OUT_DIR REPO ∈ dirs (snd (main REPO w)) /\
  (forall q, q ∈ ancestors_and_self (OUT_DIR REPO) ->
             q ∈ dirs (snd (main REPO w))) /\
  (forall v : World, dirs v ⊆ dirs (snd (main REPO v))).
Proof.
  intros Hun Hclear.
  destruct (main_unreadable REPO w Hun) as (e & He & _ & _ & _ & Hd).
  specialize (Hd Hclear).
  split; [eauto|]. split; [|split].
  - rewrite Hd. apply elem_of_union. left.
    apply elem_of_list_to_set, OUT_DIR_is_dir_after_mkdir.
  - intros q Hq. rewrite Hd. apply elem_of_union. left.
    apply elem_of_list_to_set, Hq.
  - intros v. apply main_dirs_monotone.
Qed.

End Rerun.

(** ** Concrete runs *)

Section Concrete.

#[local] Existing Instance Raw.codec.

Lemma Raw_source_decodes : decode Raw.source = Some Raw.image.
Proof. reflexivity. Qed.

Lemma Raw_world0_clear : mkdir_clear (OUT_DIR Raw.repo) Raw.world0.
Proof.
  split.
  - vm_compute. reflexivity.
  - intros q Hq. unfold Raw.world0. cbn [files].
    apply lookup_singleton_ne. intros <-. revert Hq.
    apply (bool_decide_unpack _). vm_compute. exact I.
Qed.

(** From [Raw.world0] the run completes. *)
Lemma Raw_world0_runs :
  main Raw.repo Raw.world0 =
    (Ok tt, final_world Raw.repo Raw.image Raw.world0).
Proof.
  apply main_succeeds with (bytes := Raw.source).
  - unfold Raw.world0. cbn [files]. apply lookup_singleton_eq.
  - exact Raw_source_decodes.
  - exact Raw_world0_clear.
  - intros n _. unfold Raw.world0. cbn [dirs]. apply not_elem_of_empty.
Qed.

Lemma Raw_empty_world_unreadable : unreadable SRC Raw.empty_world.
Proof. left. unfold Raw.empty_world. cbn [files]. apply lookup_empty. Qed.

Lemma Raw_empty_world_clear : mkdir_clear (OUT_DIR Raw.repo) Raw.empty_world.
Proof.
  unfold Raw.empty_world. split; [|intros q _]; cbn [files]; apply lookup_empty.
Qed.

(** The loop, run on a three-entry table with a repeated size: four files
    written, two calls to [Image.resize], and the two files of size 1 from
    different entries hold the same bytes. *)
Example small_table_run :
  let w := mkWorld {[ ["out"]%string ]} ∅ [] [] in
  let table := [(1, ["a"; "b"]); (2, ["c"]); (1, ["d"])]%string in
  let r := for_sizes (prepared Raw.image) ["out"]%string table ∅ w in
  fst r = Ok tt /\
  stdout (snd r) =
    [["out"; "a"]; ["out"; "b"]; ["out"; "c"]; ["out"; "d"]]%string /\
  resize_calls (snd r) = [(1, 1); (2, 2)] /\
  files (snd r) !! ["out"; "a"]%string =
    Some [x00; x01; x00; x01; x10; x20; x80; xff] /\
  files (snd r) !! ["out"; "d"]%string = files (snd r) !! ["out"; "a"]%string.
Proof. vm_compute. repeat split; reflexivity. Qed.

(** The whole script, run where the source is missing. *)
Example missing_source_run :
  fst (main Raw.repo Raw.empty_world) = Raise FileNotFoundError /\
  files (snd (main Raw.repo Raw.empty_world)) = ∅ /\
  bool_decide (OUT_DIR Raw.repo ∈ dirs (snd (main Raw.repo Raw.empty_world)))
    = true.
Proof. vm_compute. repeat split; reflexivity. Qed.

Lemma square_crop_centered_witness :
  square_crop Raw.image = crop Raw.image (1, 0, 3, 2) /\
  im_size (square_crop Raw.image) = (2, 2) /\
  pixel_at (square_crop Raw.image) 0 1 = pixel_at Raw.image 1 1.
Proof.
  destruct (square_crop_centered Raw.image 4 2 eq_refl) as [Hcrop _].
  destruct (Hcrop ltac:(lia)) as (Hbox & Hsize & Hpix).
  split; [exact Hbox|]. split; [exact Hsize|].
  apply (Hpix 0 1); vm_compute; split; congruence.
Defined.

Lemma make_background_transparent_pixel_witness :
  getdata (make_background_transparent Raw.image 235) !! 2%nat =
    Some (240, 235, 245, 0) /\
  getdata (make_background_transparent Raw.image 235) !! 5%nat =
    Some (234, 255, 255, 255).
Proof.
  split.
  - destruct (make_background_transparent_pixel
                Raw.image 2 240 235 245 255 eq_refl) as (Hlight & _ & _).
    apply Hlight. lia.
  - destruct (make_background_transparent_pixel
                Raw.image 5 234 255 255 255 eq_refl) as (_ & Hdark & _).
    apply Hdark. lia.
Defined.

Lemma main_writes_every_filename_witness :
  stdout (final_world Raw.repo Raw.image Raw.world0) =
    stdout Raw.world0 ++ map (joinpath (OUT_DIR Raw.repo)) (filenames SIZES).
Proof.
  exact (proj1 (main_writes_every_filename Raw.repo _ _ Raw_world0_runs)).
Defined.

(** C1, as stated, fails: the run from [Raw.world0] completes and creates
    28 files, not 22. *)
Lemma main_writes_28_files_not_22 :
  exists w',
    main Raw.repo Raw.world0 = (Ok tt, w') /\
    length (stdout w') = 28%nat /\
    size (dom (files w') ∖ dom (files Raw.world0)) = 28%nat /\
    size (dom (files w') ∖ dom (files Raw.world0)) <> 22%nat.
Proof.
  exists (final_world Raw.repo Raw.image Raw.world0).
  split; [exact Raw_world0_runs|].
  assert (Hsize : size (dom (files (final_world Raw.repo Raw.image Raw.world0))
                          ∖ dom (files Raw.world0)) = 28%nat).
  { unfold final_world, Raw.world0. cbn [files].
    rewrite write_all_dom, outputs_paths, dom_singleton_L.
    vm_compute. reflexivity. }
  split; [|split].
  - unfold final_world. cbn [stdout]. rewrite outputs_paths. reflexivity.
  - exact Hsize.
  - rewrite Hsize. discriminate.
Qed.

Lemma resize_once_per_distinct_size_witness :
  resize_calls (final_world Raw.repo Raw.image Raw.world0) =
    resize_calls Raw.world0 ++
    map (fun s => (s, s))
        [20; 40; 60; 29; 58; 87; 80; 120; 180; 76; 152; 167; 1024;
         16; 32; 64; 128; 256; 512].
Proof.
  exact (proj1 (resize_once_per_distinct_size Raw.repo _ _ Raw_world0_runs)).
Defined.

Lemma every_file_has_its_size_witness :
  exists img,
    files (final_world Raw.repo Raw.image Raw.world0)
      !! joinpath (OUT_DIR Raw.repo) "icon-mac-32.png" =
      Some (png_encode img) /\
    im_size img = (32, 32).
Proof.
  destruct (every_file_has_its_size Raw.repo _ _ Raw_world0_runs) as [_ Hall].
  apply (Hall 32 ["icon-mac-16@2x.png"; "icon-mac-32.png"]%string).
  - apply (bool_decide_unpack _). vm_compute. exact I.
  - apply (bool_decide_unpack _). vm_compute. exact I.
Defined.

Lemma same_size_same_bytes_witness :
  files (final_world Raw.repo Raw.image Raw.world0)
    !! joinpath (OUT_DIR Raw.repo) "icon-20@2x-ipad.png" =
  files (final_world Raw.repo Raw.image Raw.world0)
    !! joinpath (OUT_DIR Raw.repo) "icon-40.png".
Proof.
  apply (same_size_same_bytes Raw.repo Raw.world0 _ 40
           ["icon-20@2x.png"; "icon-20@2x-ipad.png"]%string
           ["icon-40.png"]%string).
  - exact Raw_world0_runs.
  - apply (bool_decide_unpack _). vm_compute. exact I.
  - apply (bool_decide_unpack _). vm_compute. exact I.
  - apply (bool_decide_unpack _). vm_compute. exact I.
  - apply (bool_decide_unpack _). vm_compute. exact I.
Defined.

Lemma main_idempotent_witness :
  exists w2,
    main Raw.repo (final_world Raw.repo Raw.image Raw.world0) = (Ok tt, w2) /\
    files w2 = files (final_world Raw.repo Raw.image Raw.world0) /\
    dirs w2 = dirs (final_world Raw.repo Raw.image Raw.world0).
Proof.
  exact (proj1 (main_idempotent Raw.repo _ _ Raw_world0_runs)).
Defined.

Lemma unreadable_source_writes_nothing_witness :
  exists e,
    fst (main Raw.repo Raw.empty_world) = Raise e /\
    files (snd (main Raw.repo Raw.empty_world)) = files Raw.empty_world /\
    stdout (snd (main Raw.repo Raw.empty_world)) = stdout Raw.empty_world /\
    resize_calls (snd (main Raw.repo Raw.empty_world)) =
      resize_calls Raw.empty_world.
Proof.
  exact (unreadable_source_writes_nothing
           Raw.repo _ Raw_empty_world_unreadable).
Defined.

Lemma output_dir_created_despite_failure_witness :
  (exists e, fst (main Raw.repo Raw.empty_world) = Raise e) /\
  OUT_DIR Raw.repo ∈ dirs (snd (main Raw.repo Raw.empty_world)).
Proof.
  destruct (output_dir_created_despite_failure Raw.repo _
              Raw_empty_world_unreadable Raw_empty_world_clear)
    as (Hraise & Hdir & _).
  split; assumption.
Defined.

End Concrete.

(** * Further properties of the script *)

(** ** [make_background_transparent] beyond the default threshold *)

Lemma convert_RGBA_mode img : mode (convert_RGBA img) = RGBA.
Proof.
  unfold convert_RGBA. destruct (mode img) eqn:Hm; [reflexivity | exact Hm].
Qed.

Lemma convert_RGBA_of_RGBA img : mode img = RGBA -> convert_RGBA img = img.
Proof. unfold convert_RGBA. intros ->. reflexivity. Qed.

Lemma transparent_rule_idempotent threshold p :
  transparent_rule threshold (transparent_rule threshold p) =
  transparent_rule threshold p.
Proof.
  destruct p as [[[r g] b] a]. unfold transparent_rule at 2.
  destruct ((r >=? threshold) && (g >=? threshold) && (b >=? threshold))
    eqn:Hlight; [|unfold transparent_rule; rewrite Hlight; reflexivity].
  unfold transparent_rule. rewrite Hlight. reflexivity.
Qed.

(** The rule either keeps a pixel or clears its alpha; it fires exactly on
    the pixels whose three colour channels reach the threshold. *)
Lemma transparent_rule_cases threshold r g b a :
  (threshold <= r /\ threshold <= g /\ threshold <= b /\
   transparent_rule threshold (r, g, b, a) = (r, g, b, 0)) \/
  ((r < threshold \/ g < threshold \/ b < threshold) /\
   transparent_rule threshold (r, g, b, a) = (r, g, b, a)).
Proof.
  destruct (Z_lt_le_dec r threshold) as [Hr|Hr];
    [right; split; [auto | apply transparent_rule_dark; auto]|].
  destruct (Z_lt_le_dec g threshold) as [Hg|Hg];
    [right; split; [auto | apply transparent_rule_dark; auto]|].
  destruct (Z_lt_le_dec b threshold) as [Hb|Hb];
    [right; split; [auto | apply transparent_rule_dark; auto]|].
  left. repeat split; try assumption. apply transparent_rule_light; assumption.
Qed.

(** X1.  Applying [make_background_transparent] a second time with the
    same threshold changes nothing: the pass is idempotent, for every
    image and every threshold. *)
Theorem make_background_transparent_idempotent (img : Image) (threshold : Z) :
  make_background_transparent (make_background_transparent img threshold)
                              threshold =
  make_background_transparent img threshold.
Proof.
  assert (Hmode : mode (make_background_transparent img threshold) = RGBA)
    by apply make_background_transparent_mode.
  unfold make_background_transparent at 1.
  rewrite (convert_RGBA_of_RGBA _ Hmode).
  unfold make_background_transparent, putdata.
  cbn [mode im_size getdata]. f_equal.
  rewrite map_map. apply map_ext. intros p.
  apply transparent_rule_idempotent.
Qed.

(** X2.  Lowering the threshold never brings a pixel back: a pixel that
    comes out with alpha 0 at threshold [t2] comes out with alpha 0, and
    the same colour, at every threshold [t1 <= t2]. *)
Theorem make_background_transparent_monotone (img : Image) (t1 t2 : Z)
    (i : nat) (r g b : Z) :
  t1 <= t2 ->
  getdata (make_background_transparent img t2) !! i = Some (r, g, b, 0) ->
  getdata (make_background_transparent img t1) !! i = Some (r, g, b, 0).
Proof.
  intros Hle. rewrite !make_background_transparent_lookup.
  destruct (getdata (convert_RGBA img) !! i) as [[[[r' g'] b'] a']|];
    [|discriminate].
  cbn [fmap option_fmap option_map]. intros E. apply (inj Some) in E.
  f_equal.
  destruct (transparent_rule_cases t2 r' g' b' a')
    as [(Hr & Hg & Hb & E2) | (_ & E2)];
    rewrite E2 in E; inversion E; subst.
  - apply transparent_rule_light; lia.
  - destruct (transparent_rule_cases t1 r g b 0)
      as [(_ & _ & _ & E1) | (_ & E1)]; exact E1.
Qed.

(** X3.  Whatever the threshold, the pass keeps the three colour channels
    of every pixel and leaves its alpha either as it was after the
    conversion to RGBA or at 0: no pixel becomes more opaque and no colour
    is altered. *)
Theorem make_background_transparent_keeps_colour (img : Image)
    (threshold : Z) (i : nat) (r g b a : Z) :
  getdata (convert_RGBA img) !! i = Some (r, g, b, a) ->
  exists a',
    getdata (make_background_transparent img threshold) !! i =
      Some (r, g, b, a') /\
    (a' = 0 \/ a' = a).
Proof.
  intros Hi. rewrite make_background_transparent_lookup, Hi.
  cbn [fmap option_fmap option_map].
  destruct (transparent_rule_cases threshold r g b a)
    as [(_ & _ & _ & E) | (_ & E)]; rewrite E.
  - exists 0. auto.
  - exists a. auto.
Qed.

(** X4.  An image none of whose pixels has all three channels at or above
    the threshold goes through unchanged apart from the conversion to
    RGBA; an RGBA image of that kind is returned as it is. *)
Theorem make_background_transparent_no_light_pixel (img : Image)
    (threshold : Z) :
  (forall r g b a, (r, g, b, a) ∈ getdata img ->
                   r < threshold \/ g < threshold \/ b < threshold) ->
  make_background_transparent img threshold = convert_RGBA img /\
  (mode img = RGBA -> make_background_transparent img threshold = img).
Proof.
  intros Hdark.
  assert (E : make_background_transparent img threshold = convert_RGBA img).
  { unfold make_background_transparent, putdata.
    assert (Hdata : map (transparent_rule threshold)
                        (getdata (convert_RGBA img)) =
                    getdata (convert_RGBA img)).
    { rewrite <- (map_id (getdata (convert_RGBA img))) at 2.
      apply map_ext_in. intros [[[r g] b] a] Hin.
      apply list_elem_of_In in Hin.
      apply transparent_rule_dark.
      unfold convert_RGBA in Hin. destruct (mode img).
      - cbn [getdata] in Hin.
        apply list_elem_of_fmap in Hin as ([[[r0 g0] b0] a0] & Ep & Hin).
        inversion Ep; subst. exact (Hdark _ _ _ _ Hin).
      - exact (Hdark _ _ _ _ Hin). }
    rewrite Hdata. destruct (convert_RGBA img). reflexivity. }
  split; [exact E|].
  intros Hm. rewrite E. apply convert_RGBA_of_RGBA, Hm.
Qed.

(** ** The crop and the raster handed to the loop *)

(** X5.  For an image of non-negative width and height, the box of lines
    57-60 is a square of side [min w h] inside the image, and on each axis
    the margin after the box exceeds the margin before it by at most one
    pixel: the crop is centred, an odd surplus going to the right or the
    bottom. *)
Theorem crop_box_centred (w h x0 y0 x1 y1 : Z) :
  0 <= w -> 0 <= h ->
  crop_box w h = (x0, y0, x1, y1) ->
  x1 - x0 = Z.min w h /\ y1 - y0 = Z.min w h /\
  0 <= x0 /\ x1 <= w /\ 0 <= y0 /\ y1 <= h /\
  0 <= (w - x1) - x0 <= 1 /\ 0 <= (h - y1) - y0 <= 1.
Proof.
  unfold crop_box. intros Hw Hh E. inversion E; subst; clear E.
  pose proof (Z.div_mod (w - Z.min w h) 2 ltac:(lia)) as Hdw.
  pose proof (Z.mod_pos_bound (w - Z.min w h) 2 ltac:(lia)) as Hmw.
  pose proof (Z.div_mod (h - Z.min w h) 2 ltac:(lia)) as Hdh.
  pose proof (Z.mod_pos_bound (h - Z.min w h) 2 ltac:(lia)) as Hmh.
  lia.
Qed.

(** Inside a well-formed image every coordinate holds a pixel of the data. *)
Lemma pixel_at_elem im x y :
  well_formed im -> 0 <= x < width im -> 0 <= y < height im ->
  pixel_at im x y ∈ getdata im.
Proof.
  intros (Hw & Hh & Hlen) Hx Hy. unfold pixel_at.
  replace ((0 <=? x) && (x <? width im) && (0 <=? y) && (y <? height im))
    with true by (symmetry; repeat (apply andb_true_intro; split); lia).
  apply list_elem_of_In, nth_In.
  apply Nat2Z.inj_lt. rewrite Z2Nat.id by nia. nia.
Qed.

Lemma crop_elem im x0 y0 x1 y1 p :
  well_formed im ->
  0 <= x0 <= x1 -> x1 <= width im -> 0 <= y0 <= y1 -> y1 <= height im ->
  p ∈ getdata (crop im (x0, y0, x1, y1)) -> p ∈ getdata im.
Proof.
  intros Hwf Hx0 Hx1 Hy0 Hy1 Hp. unfold crop in Hp. cbn [getdata] in Hp.
  apply list_elem_of_fmap in Hp as (i & -> & Hi).
  apply elem_of_seqZ in Hi.
  assert (Hpos : 0 < x1 - x0) by nia.
  pose proof (Z.mod_pos_bound i (x1 - x0) Hpos) as Hmod.
  assert (Hdiv : 0 <= i / (x1 - x0) < y1 - y0).
  { split; [apply Z.div_pos; lia|].
    apply Z.div_lt_upper_bound; [lia|]. lia. }
  apply pixel_at_elem; [exact Hwf | lia | lia].
Qed.

(** X6.  Cropping a well-formed image never pads: the result is again
    well-formed, has the mode of its input, and each of its pixels is a
    pixel of the input. *)
Theorem square_crop_never_pads (im : Image) :
  well_formed im ->
  well_formed (square_crop im) /\
  mode (square_crop im) = mode im /\
  forall p, p ∈ getdata (square_crop im) -> p ∈ getdata im.
Proof.
  intros Hwf. split; [apply square_crop_well_formed, Hwf|].
  pose proof Hwf as (Hw & Hh & _).
  unfold square_crop. unfold width, height in Hw, Hh.
  destruct (im_size im) as [w h] eqn:Hsz. cbn [fst snd] in Hw, Hh.
  destruct (Z.eqb_spec w h) as [->|Hne]; cbn [negb]; [auto|].
  destruct (crop_box w h) as [[[x0 y0] x1] y1] eqn:Hbox.
  destruct (crop_box_inside w h x0 y0 x1 y1 Hw Hh Hbox) as (? & ? & ? & ?).
  split; [reflexivity|].
  intros p Hp. apply (crop_elem im x0 y0 x1 y1); try assumption.
  - unfold width. rewrite Hsz. assumption.
  - unfold height. rewrite Hsz. assumption.
Qed.

(** X7.  In the raster [main] hands to the resize loop, every pixel takes
    its colour from a pixel of the decoded source, whose own alpha plays no
    part: the pixel is fully transparent when its three channels are all at
    least 235 and fully opaque otherwise. *)
Theorem prepared_pixels (src : Image) (r g b a : Z) :
  well_formed src ->
  (r, g, b, a) ∈ getdata (prepared src) ->
  (exists a0, (r, g, b, a0) ∈ getdata src) /\
  ((a = 0 /\ 235 <= r /\ 235 <= g /\ 235 <= b) \/
   (a = 255 /\ (r < 235 \/ g < 235 \/ b < 235))).
Proof.
  intros Hwf Hp. unfold prepared, make_background_transparent, putdata in Hp.
  cbn [getdata] in Hp.
  apply list_elem_of_fmap in Hp as (q & Eq & Hq).
  assert (Hcrop_mode : mode (square_crop (convert_RGB src)) = RGB).
  { unfold square_crop. destruct (im_size (convert_RGB src)) as [w h].
    destruct (negb (w =? h)); [|reflexivity].
    destruct (crop_box w h) as [[[x0 y0] x1] y1]. reflexivity. }
  unfold convert_RGBA in Hq. rewrite Hcrop_mode in Hq. cbn [getdata] in Hq.
  apply list_elem_of_fmap in Hq as (q1 & -> & Hq1).
  assert (Hsrc : q1 ∈ getdata (convert_RGB src)).
  { unfold square_crop in Hq1.
    pose proof (convert_RGB_well_formed _ Hwf) as Hwf'.
    pose proof Hwf' as (Hw & Hh & _). unfold width, height in Hw, Hh.
    destruct (im_size (convert_RGB src)) as [w h] eqn:Hsz.
    cbn [fst snd] in Hw, Hh.
    destruct (Z.eqb_spec w h) as [->|Hne]; cbn [negb] in Hq1; [exact Hq1|].
    destruct (crop_box w h) as [[[x0 y0] x1] y1] eqn:Hbox.
    destruct (crop_box_inside w h x0 y0 x1 y1 Hw Hh Hbox) as (? & ? & ? & ?).
    apply (crop_elem _ x0 y0 x1 y1); try assumption.
    - unfold width. rewrite Hsz. assumption.
    - unfold height. rewrite Hsz. assumption. }
  unfold convert_RGB in Hsrc. cbn [getdata] in Hsrc.
  apply list_elem_of_fmap in Hsrc as ([[[r0 g0] b0] a0] & -> & Hsrc).
  cbn [opaque] in Eq.
  destruct (transparent_rule_cases 235 r0 g0 b0 255)
    as [(Hr & Hg & Hb & E) | (Hdark & E)];
    rewrite E in Eq; inversion Eq; subst.
  - split; [eauto|]. left. auto.
  - split; [eauto|]. right. auto.
Qed.

(** ** Runs that stop part-way *)

(** A list either satisfies a decidable property throughout or splits at
    the first element that fails it. *)
Lemma first_failure_split {A} (P : A -> Prop) `{forall x, Decision (P x)}
    (l : list A) :
  (forall x, x ∈ l -> P x) \/
  exists pre x post,
    l = pre ++ x :: post /\ (forall y, y ∈ pre -> P y) /\ ~ P x.
Proof.
  induction l as [|a l IH].
  - left. intros x Hx. inversion Hx.
  - destruct (decide (P a)) as [Ha|Hna].
    + destruct IH as [Hall | (pre & x & post & -> & Hpre & Hx)].
      * left. intros x Hx. apply elem_of_cons in Hx as [->|Hx]; auto.
      * right. exists (a :: pre), x, post. split; [reflexivity|].
        split; [|exact Hx].
        intros y Hy. apply elem_of_cons in Hy as [->|Hy]; auto.
    + right. exists [], a, l. split; [reflexivity|]. split; [|exact Hna].
      intros y Hy. inversion Hy.
Qed.

Section LoopFailures.

Context `{Codec}.

(** The inner loop stops at the first filename whose path is a directory,
    having written and printed the filenames before it. *)
Lemma save_loop_blocked od size seen r pre n post : forall w,
  seen !! size = Some r ->
  od ∈ dirs w ->
  (forall m, m ∈ pre -> joinpath od m ∉ dirs w) ->
  joinpath od n ∈ dirs w ->
  exists w',
    save_loop od size (pre ++ n :: post) seen w =
      (Raise IsADirectoryError, w') /\
    dirs w' = dirs w /\
    files w' =
      write_all (map (fun m => (joinpath od m, png_encode r)) pre) (files w) /\
    stdout w' = stdout w ++ map (joinpath od) pre /\
    resize_calls w' = resize_calls w.
Proof.
  induction pre as [|m pre IH]; intros w Hr Hod Hfree Hblocked.
  - exists w. cbn [app map]. rewrite save_loop_cons, app_nil_r.
    split; [|auto].
    apply bind_Raise_intro. apply bind_Raise_intro.
    rewrite Hr. unfold save.
    destruct (decide (joinpath od n ∈ dirs w)); [reflexivity | contradiction].
  - cbn [app]. rewrite save_loop_cons.
    assert (Hm : joinpath od m ∉ dirs w) by (apply Hfree; left).
    pose proof (save_succeeds r _ w Hm) as Hsave.
    rewrite parent_joinpath in Hsave. specialize (Hsave Hod).
    set (w1 := mkWorld (dirs w)
                       (<[joinpath od m := png_encode r]> (files w))
                       (stdout w ++ [joinpath od m]) (resize_calls w)).
    assert (Hbody : (match seen !! size with
                     | Some r => save r (joinpath od m)
                     | None => raise KeyError
                     end ;;; print (joinpath od m)) w = (Ok tt, w1)).
    { rewrite Hr. rewrite (bind_Ok_intro _ _ _ _ _ Hsave). reflexivity. }
    destruct (IH w1 Hr Hod) as (w' & Hrun & Hd & Hf & Ho & Hc).
    { intros m' Hm'. apply Hfree. right. exact Hm'. }
    { exact Hblocked. }
    exists w'. rewrite (bind_Ok_intro _ _ _ _ _ Hbody).
    split; [exact Hrun|]. rewrite Hd, Hf, Ho, Hc. unfold w1.
    cbn [dirs files stdout resize_calls map]. rewrite <- app_assoc.
    auto.
Qed.

Lemma filenames_cons size names rest :
  filenames ((size, names) :: rest) = names ++ filenames rest.
Proof. reflexivity. Qed.

(** The outer loop stops at the first filename of the table whose path is a
    directory, having written and printed every filename before it. *)
Lemma for_sizes_blocked im od l : forall seen w pre n post,
  cache_sound im seen ->
  od ∈ dirs w ->
  filenames l = pre ++ n :: post ->
  (forall m, m ∈ pre -> joinpath od m ∉ dirs w) ->
  joinpath od n ∈ dirs w ->
  exists w',
    for_sizes im od l seen w = (Raise IsADirectoryError, w') /\
    dirs w' = dirs w /\
    files w' = write_all (take (length pre) (outputs im od l)) (files w) /\
    stdout w' = stdout w ++ map (joinpath od) pre.
Proof.
  induction l as [|[size names] rest IH];
    intros seen w pre n post Hsound Hod Hsplit Hfree Hblocked.
  - destruct pre; discriminate Hsplit.
  - rewrite filenames_cons in Hsplit. rewrite for_sizes_cons, outputs_cons.
    destruct (cache_step_spec im size seen w Hsound)
      as (seen' & w1 & Hstep & Hsound' & Hhit & _ & Hd1 & Hf1 & Ho1 & _).
    rewrite (bind_Ok_intro _ _ _ _ _ Hstep).
    set (mk := fun name : string =>
                 (joinpath od name, png_encode (resized im (size, size)))).
    apply app_eq_app in Hsplit as [mid [[Hnames Htail] | [Hpre Htail]]].
    + destruct mid as [|x mid].
      * (* this entry's names are exactly [pre]: the block comes later *)
        rewrite app_nil_r in Hnames. subst names. cbn [app] in Htail.
        destruct (save_loop_succeeds od size pre seen' _ w1 Hhit)
          as [w2 Hsave].
        { rewrite Hd1. exact Hod. }
        { intros m Hm. rewrite Hd1. apply Hfree, Hm. }
        destruct (save_loop_Ok _ _ _ _ _ _ _ Hhit Hsave)
          as (Hd2 & Hf2 & Ho2 & _).
        rewrite (bind_Ok_intro _ _ _ _ _ Hsave).
        destruct (IH seen' w2 [] n post Hsound')
          as (w3 & Hrun & Hd3 & Hf3 & Ho3).
        { rewrite Hd2, Hd1. exact Hod. }
        { symmetry. exact Htail. }
        { intros m Hm. inversion Hm. }
        { rewrite Hd2, Hd1. exact Hblocked. }
        exists w3. split; [exact Hrun|].
        rewrite Hd3, Hf3, Ho3, Hd2, Hf2, Ho2, Hd1, Hf1, Ho1.
        cbn [length take map write_all foldl]. rewrite app_nil_r.
        rewrite (take_app_length' (map mk pre))
          by (rewrite length_map; reflexivity).
        auto.
      * (* the block is among this entry's names *)
        inversion Htail; subst x. subst names.
        destruct (save_loop_blocked od size seen' _ pre n mid w1 Hhit)
          as (w2 & Hsave & Hd2 & Hf2 & Ho2 & _).
        { rewrite Hd1. exact Hod. }
        { intros m Hm. rewrite Hd1. apply Hfree, Hm. }
        { rewrite Hd1. exact Hblocked. }
        exists w2. rewrite (bind_Raise_intro _ _ _ _ _ Hsave).
        split; [reflexivity|].
        rewrite Hd2, Hf2, Ho2, Hd1, Hf1, Ho1.
        rewrite map_app, <- app_assoc.
        rewrite (take_app_length' (map mk pre))
          by (rewrite length_map; reflexivity).
        auto.
    + (* every name of this entry is written; the block is later *)
      subst pre.
      destruct (save_loop_succeeds od size names seen' _ w1 Hhit)
        as [w2 Hsave].
      { rewrite Hd1. exact Hod. }
      { intros m Hm. rewrite Hd1. apply Hfree, elem_of_app. left. exact Hm. }
      destruct (save_loop_Ok _ _ _ _ _ _ _ Hhit Hsave)
        as (Hd2 & Hf2 & Ho2 & _).
      rewrite (bind_Ok_intro _ _ _ _ _ Hsave).
      destruct (IH seen' w2 mid n post Hsound')
        as (w3 & Hrun & Hd3 & Hf3 & Ho3).
      { rewrite Hd2, Hd1. exact Hod. }
      { exact Htail. }
      { intros m Hm. rewrite Hd2, Hd1. apply Hfree, elem_of_app. right.
        exact Hm. }
      { rewrite Hd2, Hd1. exact Hblocked. }
      exists w3. split; [exact Hrun|].
      rewrite Hd3, Hf3, Ho3, Hd2, Hf2, Ho2, Hd1, Hf1, Ho1.
      rewrite length_app, map_app, app_assoc.
      rewrite (take_app_add' (map mk names))
        by (rewrite length_map; reflexivity).
      rewrite write_all_app. auto.
Qed.

End LoopFailures.

(** ** Every way a run can end *)

Lemma mkdir_Raise p w e w' :
  mkdir_parents_exist_ok p w = (Raise e, w') ->
  w' = w /\ (e = FileExistsError \/ e = NotADirectoryError) /\
  ~ mkdir_clear p w.
Proof.
  intros Hmk. assert (Hnot : ~ mkdir_clear p w).
  { intros Hclear. rewrite (mkdir_succeeds _ _ Hclear) in Hmk. discriminate. }
  unfold mkdir_parents_exist_ok in Hmk.
  destruct (decide _); [inversion Hmk; subst; auto|].
  destruct (existsb _ _); inversion Hmk; subst; auto.
Qed.

Section Outcomes.

Context `{Codec}.
Variable REPO : Path.

(** The world once [OUT_DIR.mkdir] has run. *)
Let after_mkdir (w : World) : World :=
  mkWorld (list_to_set (ancestors_and_self (OUT_DIR REPO)) ∪ dirs w)
          (files w) (stdout w) (resize_calls w).

Lemma output_path_free_after_mkdir w n :
  joinpath (OUT_DIR REPO) n ∈ dirs (after_mkdir w) <->
  joinpath (OUT_DIR REPO) n ∈ dirs w.
Proof.
  unfold after_mkdir. cbn [dirs].
  rewrite elem_of_union, elem_of_list_to_set. split; [|auto].
  intros [Hanc | Hdir]; [|exact Hdir].
  destruct (joinpath_not_ancestor _ _ Hanc).
Qed.

(** With a readable source and a clear output directory, a directory at an
    output path stops the run there. *)
Lemma main_blocked w bytes src pre n post :
  files w !! SRC = Some bytes -> decode bytes = Some src ->
  mkdir_clear (OUT_DIR REPO) w ->
  filenames SIZES = pre ++ n :: post ->
  (forall m, m ∈ pre -> joinpath (OUT_DIR REPO) m ∉ dirs w) ->
  joinpath (OUT_DIR REPO) n ∈ dirs w ->
  exists w',
    main REPO w = (Raise IsADirectoryError, w') /\
    dirs w' = dirs (after_mkdir w) /\
    files w' =
      write_all (take (length pre)
                      (outputs (prepared src) (OUT_DIR REPO) SIZES))
                (files w) /\
    stdout w' = stdout w ++ map (joinpath (OUT_DIR REPO)) pre.
Proof.
  intros Hbytes Hdec Hclear Hsplit Hfree Hblocked.
  assert (Hopen : Image_open SRC (after_mkdir w) = (Ok src, after_mkdir w)).
  { unfold Image_open, after_mkdir. cbn [files]. rewrite Hbytes, Hdec.
    reflexivity. }
  destruct (for_sizes_blocked (prepared src) (OUT_DIR REPO) SIZES ∅
              (after_mkdir w) pre n post (cache_sound_empty _))
    as (w' & Hrun & Hd & Hf & Ho).
  { unfold after_mkdir. cbn [dirs]. apply elem_of_union. left.
    apply elem_of_list_to_set, OUT_DIR_is_dir_after_mkdir. }
  { exact Hsplit. }
  { intros m Hm. rewrite output_path_free_after_mkdir. apply Hfree, Hm. }
  { apply output_path_free_after_mkdir. exact Hblocked. }
  exists w'. split; [|auto].
  rewrite main_unfold.
  rewrite (bind_Ok_intro _ _ _ _ _ (mkdir_succeeds _ _ Hclear)).
  fold (after_mkdir w). rewrite (bind_Ok_intro _ _ _ _ _ Hopen). exact Hrun.
Qed.

(** The four ways a run ends: [mkdir] refuses; the source is unreadable;
    a directory sits at an output path; or the run completes. *)
Lemma main_outcome w :
  (exists e,
     main REPO w = (Raise e, w) /\
     (e = FileExistsError \/ e = NotADirectoryError) /\
     ~ mkdir_clear (OUT_DIR REPO) w) \/
  (exists e,
     main REPO w = (Raise e, after_mkdir w) /\
     mkdir_clear (OUT_DIR REPO) w /\
     ((e = IsADirectoryError /\ files w !! SRC = None /\
       SRC ∈ dirs (after_mkdir w)) \/
      (e = FileNotFoundError /\ files w !! SRC = None /\
       SRC ∉ dirs (after_mkdir w)) \/
      (e = UnidentifiedImageError /\
       exists bytes, files w !! SRC = Some bytes /\ decode bytes = None))) \/
  (exists bytes src pre n post w',
     main REPO w = (Raise IsADirectoryError, w') /\
     files w !! SRC = Some bytes /\ decode bytes = Some src /\
     mkdir_clear (OUT_DIR REPO) w /\
     filenames SIZES = pre ++ n :: post /\
     (forall m, m ∈ pre -> joinpath (OUT_DIR REPO) m ∉ dirs w) /\
     joinpath (OUT_DIR REPO) n ∈ dirs w /\
     dirs w' = dirs (after_mkdir w) /\
     files w' =
       write_all (take (length pre)
                       (outputs (prepared src) (OUT_DIR REPO) SIZES))
                 (files w) /\
     stdout w' = stdout w ++ map (joinpath (OUT_DIR REPO)) pre) \/
  (exists bytes src,
     main REPO w = (Ok tt, final_world REPO src w) /\
     files w !! SRC = Some bytes /\ decode bytes = Some src /\
     mkdir_clear (OUT_DIR REPO) w /\
     (forall m, m ∈ filenames SIZES -> joinpath (OUT_DIR REPO) m ∉ dirs w)).
Proof.
  destruct (mkdir_parents_exist_ok (OUT_DIR REPO) w) as [[[]|e] w1] eqn:Hmk.
  - apply mkdir_Ok in Hmk as [Hclear _]. right.
    assert (Hopen_fails : forall e,
              Image_open SRC (after_mkdir w) = (Raise e, after_mkdir w) ->
              main REPO w = (Raise e, after_mkdir w)).
    { intros e He. rewrite main_unfold.
      rewrite (bind_Ok_intro _ _ _ _ _ (mkdir_succeeds _ _ Hclear)).
      apply bind_Raise_intro. exact He. }
    destruct (files w !! SRC) as [bytes|] eqn:Hbytes.
    + destruct (decode bytes) as [src|] eqn:Hdec.
      * right.
        destruct (first_failure_split
                    (fun m => joinpath (OUT_DIR REPO) m ∉ dirs w)
                    (filenames SIZES))
          as [Hall | (pre & n & post & Hsplit & Hpre & Hn)].
        -- right. exists bytes, src.
           split; [apply main_succeeds with (bytes := bytes); assumption|].
           auto.
        -- left. apply dec_stable in Hn.
           destruct (main_blocked w bytes src pre n post
                       Hbytes Hdec Hclear Hsplit Hpre Hn)
             as (w' & Hrun & Hd & Hf & Ho).
           exists bytes, src, pre, n, post, w'.
           repeat (split; [first [assumption | reflexivity]|]). assumption.
      * left. exists UnidentifiedImageError.
        split; [|split; [exact Hclear|]].
        -- apply Hopen_fails. unfold Image_open, after_mkdir. cbn [files].
           rewrite Hbytes, Hdec. reflexivity.
        -- right. right. split; [reflexivity|]. eauto.
    + left. destruct (decide (SRC ∈ dirs (after_mkdir w))) as [Hdir|Hnodir].
      * exists IsADirectoryError. split; [|split; [exact Hclear|]].
        -- apply Hopen_fails. unfold Image_open.
           replace (files (after_mkdir w) !! SRC) with (@None (list byte))
             by (symmetry; exact Hbytes).
           destruct (decide (SRC ∈ dirs (after_mkdir w)));
             [reflexivity | contradiction].
        -- left. auto.
      * exists FileNotFoundError. split; [|split; [exact Hclear|]].
        -- apply Hopen_fails. unfold Image_open.
           replace (files (after_mkdir w) !! SRC) with (@None (list byte))
             by (symmetry; exact Hbytes).
           destruct (decide (SRC ∈ dirs (after_mkdir w)));
             [contradiction | reflexivity].
        -- right. left. auto.
  - destruct (mkdir_Raise _ _ _ _ Hmk) as (-> & He & Hnot). left.
    exists e. split; [|auto].
    rewrite main_unfold. apply bind_Raise_intro. exact Hmk.
Qed.

End Outcomes.

Section Extras.

Context `{Codec}.
Variable REPO : Path.

Lemma write_all_take_lookup outs k fs p b :
  NoDup (map fst outs) -> (p, b) ∈ outs -> p ∈ map fst (take k outs) ->
  write_all (take k outs) fs !! p = Some b.
Proof.
  intros Hnd Hin Hp.
  apply list_elem_of_fmap in Hp as ([p' b'] & -> & Hin'). cbn [fst] in *.
  assert (Hin'' : (p', b') ∈ outs) by (eapply subseteq_take; exact Hin').
  assert (b' = b) as ->.
  { pose proof (write_all_lookup_in outs ∅ p' b Hnd Hin) as E1.
    pose proof (write_all_lookup_in outs ∅ p' b' Hnd Hin'') as E2.
    congruence. }
  apply write_all_lookup_in; [|exact Hin'].
  rewrite <- firstn_map.
  apply (sublist_NoDup _ (map fst outs)); [exact Hnd | apply sublist_take].
Qed.

Lemma outputs_take_paths im pre n post :
  filenames SIZES = pre ++ n :: post ->
  map fst (take (length pre) (outputs im (OUT_DIR REPO) SIZES)) =
    map (joinpath (OUT_DIR REPO)) pre.
Proof.
  intros Hsplit. rewrite <- firstn_map, outputs_paths, Hsplit, map_app.
  apply take_app_length'. rewrite length_map. reflexivity.
Qed.

(** Whatever way the run ends, it has written some initial part of the
    table's outputs, in order, and printed exactly those paths. *)
Lemma main_written w :
  exists written : list (Path * list byte),
    files (snd (main REPO w)) = write_all written (files w) /\
    stdout (snd (main REPO w)) = stdout w ++ map fst written /\
    map fst written `prefix_of`
      map (joinpath (OUT_DIR REPO)) (filenames SIZES).
Proof.
  destruct (main_outcome REPO w)
    as [(e & Hrun & _) | [(e & Hrun & _) |
        [(bytes & src & pre & n & post & w' & Hrun & _ & _ & _ &
          Hsplit & _ & _ & _ & Hf & Ho) |
         (bytes & src & Hrun & _)]]];
    rewrite Hrun; cbn [fst snd].
  - exists []. cbn [map]. rewrite app_nil_r. split; [reflexivity|].
    split; [reflexivity | apply prefix_nil].
  - exists []. cbn [map files stdout]. rewrite app_nil_r.
    split; [reflexivity|]. split; [reflexivity | apply prefix_nil].
  - exists (take (length pre) (outputs (prepared src) (OUT_DIR REPO) SIZES)).
    split; [exact Hf|]. rewrite (outputs_take_paths _ pre n post Hsplit).
    split; [exact Ho|]. rewrite Hsplit, map_app.
    apply prefix_app_r. reflexivity.
  - exists (outputs (prepared src) (OUT_DIR REPO) SIZES).
    unfold final_world. cbn [files stdout].
    split; [reflexivity|]. split; [reflexivity|].
    rewrite outputs_paths. reflexivity.
Qed.

(** X8.  With a readable source and nothing blocking [mkdir], a directory
    sitting at an output path stops the run with IsADirectoryError at the
    first such filename: every filename before it in the table has been
    written with its final bytes and printed, and the blocked filename and
    all later ones are left as they were. *)
Theorem main_stops_at_first_blocked_path (w : World) (bytes : list byte)
    (src : Image) (pre : list string) (n : string) (post : list string) :
  files w !! SRC = Some bytes -> decode bytes = Some src ->
  mkdir_clear (OUT_DIR REPO) w ->
  filenames SIZES = pre ++ n :: post ->
  (forall m, m ∈ pre -> joinpath (OUT_DIR REPO) m ∉ dirs w) ->
  joinpath (OUT_DIR REPO) n ∈ dirs w ->
  fst (main REPO w) = Raise IsADirectoryError /\
  stdout (snd (main REPO w)) =
    stdout w ++ map (joinpath (OUT_DIR REPO)) pre /\
  (forall size names m,
     (size, names) ∈ SIZES -> m ∈ names -> m ∈ pre ->
     files (snd (main REPO w)) !! joinpath (OUT_DIR REPO) m =
       Some (png_encode (resized (prepared src) (size, size)))) /\
  (forall m, m ∈ n :: post ->
     files (snd (main REPO w)) !! joinpath (OUT_DIR REPO) m =
       files w !! joinpath (OUT_DIR REPO) m).
Proof.
  intros Hbytes Hdec Hclear Hsplit Hfree Hblocked.
  destruct (main_blocked REPO w bytes src pre n post
              Hbytes Hdec Hclear Hsplit Hfree Hblocked)
    as (w' & Hrun & _ & Hf & Ho).
  rewrite Hrun. cbn [fst snd]. split; [reflexivity|]. split; [exact Ho|].
  pose proof (outputs_take_paths (prepared src) pre n post Hsplit) as Hpaths.
  rewrite Hf. split.
  - intros size names m Hentry Hm Hpre.
    apply write_all_take_lookup.
    + apply outputs_NoDup, filenames_SIZES_NoDup.
    + apply outputs_elem with (names := names); assumption.
    + rewrite Hpaths. apply list_elem_of_In, in_map, list_elem_of_In, Hpre.
  - intros m Hm. apply write_all_lookup_notin. rewrite Hpaths.
    intros Hin. apply list_elem_of_fmap in Hin as (m' & E & Hm').
    apply joinpath_inj in E. subst m'.
    pose proof filenames_SIZES_NoDup as Hnd. rewrite Hsplit in Hnd.
    apply NoDup_app in Hnd as (_ & Hdisj & _).
    exact (Hdisj m Hm' Hm).
Qed.

(** X9.  The run completes exactly when the source file exists and
    decodes, neither the output directory nor any of its ancestors is a
    regular file, and no output path is a directory. *)
Theorem main_completes_iff (w : World) :
  (exists w', main REPO w = (Ok tt, w')) <->
  (exists bytes src, files w !! SRC = Some bytes /\ decode bytes = Some src) /\
  mkdir_clear (OUT_DIR REPO) w /\
  (forall n, n ∈ filenames SIZES -> joinpath (OUT_DIR REPO) n ∉ dirs w).
Proof.
  split.
  - intros [w' Hrun].
    apply main_Ok in Hrun as (bytes & src & Hb & Hd & _ & Hclear & Hfree).
    split; [eauto|]. split; assumption.
  - intros ((bytes & src & Hb & Hd) & Hclear & Hfree).
    exists (final_world REPO src w).
    apply main_succeeds with (bytes := bytes); assumption.
Qed.

(** X10.  However a run ends, the console lists exactly the files it
    wrote: what was written is an initial part of the table's filenames,
    in declaration order, each printed path holds a file afterwards, and
    nothing is printed for a file that was not written. *)
Theorem main_prints_what_it_wrote (w : World) :
  exists written : list (Path * list byte),
    files (snd (main REPO w)) = write_all written (files w) /\
    stdout (snd (main REPO w)) = stdout w ++ map fst written /\
    map fst written `prefix_of`
      map (joinpath (OUT_DIR REPO)) (filenames SIZES) /\
    (forall p, p ∈ map fst written ->
               is_Some (files (snd (main REPO w)) !! p)).
Proof.
  destruct (main_written w) as (written & Hf & Ho & Hprefix).
  exists written. repeat (split; [assumption|]).
  intros p Hp. apply elem_of_dom. rewrite Hf, write_all_dom.
  apply elem_of_union. left. apply elem_of_list_to_set. exact Hp.
Qed.

(** X11.  No run, complete or failed, changes a file other than the
    table's output paths: the source file in particular keeps its bytes,
    and no file is ever deleted. *)
Theorem main_touches_only_outputs (w : World) :
  (forall p, p ∉ map (joinpath (OUT_DIR REPO)) (filenames SIZES) ->
             files (snd (main REPO w)) !! p = files w !! p) /\
  files (snd (main REPO w)) !! SRC = files w !! SRC /\
  dom (files w) ⊆ dom (files (snd (main REPO w))).
Proof.
  destruct (main_written w) as (written & Hf & _ & Hprefix).
  assert (Hother : forall p,
            p ∉ map (joinpath (OUT_DIR REPO)) (filenames SIZES) ->
            files (snd (main REPO w)) !! p = files w !! p).
  { intros p Hp. rewrite Hf. apply write_all_lookup_notin.
    intros Hin. apply Hp. destruct Hprefix as [rest ->].
    apply elem_of_app. left. exact Hin. }
  split; [exact Hother|]. split.
  - apply Hother, SRC_not_written.
  - rewrite Hf, write_all_dom. apply union_subseteq_r.
Qed.

(** X12.  In every run, failed ones included, [Image.resize] is called at
    most once per size: the calls a run adds are pairwise distinct sizes of
    the table. *)
Theorem resize_never_repeated (w : World) :
  exists new : list Z,
    resize_calls (snd (main REPO w)) =
      resize_calls w ++ map (fun s => (s, s)) new /\
    NoDup new /\
    (forall s, s ∈ new -> s ∈ map fst SIZES).
Proof.
  destruct (main_resize_calls_prefix REPO w) as [k Hk].
  exists (take k (first_seen ∅ (map fst SIZES))).
  destruct (first_seen_spec (map fst SIZES) ∅) as [Hnd Hiff].
  split; [|split].
  - rewrite Hk, firstn_map. reflexivity.
  - apply (sublist_NoDup _ (first_seen ∅ (map fst SIZES)));
      [exact Hnd | apply sublist_take].
  - intros s Hs. apply (subseteq_take k) in Hs. apply Hiff in Hs. tauto.
Qed.


End Extras.

(** ** Concrete instances of the further properties *)

Section ConcreteExtras.

#[local] Existing Instance Raw.codec.

Lemma Raw_image_well_formed : well_formed Raw.image.
Proof. unfold well_formed. vm_compute. repeat split; congruence. Qed.

Lemma make_background_transparent_monotone_witness :
  getdata (make_background_transparent Raw.image 200) !! 2%nat =
    Some (240, 235, 245, 0).
Proof.
  apply (make_background_transparent_monotone Raw.image 200 235 2 240 235 245).
  - lia.
  - vm_compute. reflexivity.
Defined.

Lemma make_background_transparent_keeps_colour_witness :
  exists a',
    getdata (make_background_transparent Raw.image 235) !! 5%nat =
      Some (234, 255, 255, a') /\
    (a' = 0 \/ a' = 255).
Proof.
  apply (make_background_transparent_keeps_colour
           Raw.image 235 5 234 255 255 255).
  vm_compute. reflexivity.
Defined.

Lemma make_background_transparent_no_light_pixel_witness :
  make_background_transparent Raw.dark 235 = Raw.dark.
Proof.
  apply (make_background_transparent_no_light_pixel Raw.dark 235);
    [|reflexivity].
  intros r g b a Hin. unfold Raw.dark in Hin. cbn [getdata] in Hin.
  apply elem_of_cons in Hin as [E | Hin]; [inversion E; lia|].
  apply elem_of_cons in Hin as [E | Hin]; [inversion E; lia|].
  inversion Hin.
Defined.

Lemma crop_box_centred_witness :
  3 - 1 = Z.min 5 2 /\ 0 <= (5 - 3) - 1 <= 1.
Proof.
  destruct (crop_box_centred 5 2 1 0 3 2 ltac:(lia) ltac:(lia) eq_refl)
    as (Hside & _ & _ & _ & _ & _ & Hmargin & _).
  split; [exact Hside | exact Hmargin].
Defined.

Lemma square_crop_never_pads_witness :
  well_formed (square_crop Raw.image) /\
  mode (square_crop Raw.image) = RGB.
Proof.
  destruct (square_crop_never_pads Raw.image Raw_image_well_formed)
    as (Hwf & Hmode & _).
  split; [exact Hwf | exact Hmode].
Defined.

Lemma prepared_pixels_witness :
  (exists a0, (240, 235, 245, a0) ∈ getdata Raw.image) /\
  ((0 = 0 /\ 235 <= 240 /\ 235 <= 235 /\ 235 <= 245) \/
   (0 = 255 /\ (240 < 235 \/ 235 < 235 \/ 245 < 235))).
Proof.
  apply (prepared_pixels Raw.image 240 235 245 0 Raw_image_well_formed).
  rewrite prepared_Raw_image. cbn [getdata]. right. left.
Defined.

Lemma Raw_blocked_world_split :
  filenames SIZES =
    ["icon-20.png"; "icon-20@2x.png"; "icon-20@2x-ipad.png";
     "icon-20@3x.png"]%string
    ++ "icon-29.png"%string :: drop 5 (filenames SIZES).
Proof. reflexivity. Qed.

Lemma main_stops_at_first_blocked_path_witness :
  fst (main Raw.repo Raw.blocked_world) = Raise IsADirectoryError /\
  stdout (snd (main Raw.repo Raw.blocked_world)) =
    stdout Raw.blocked_world ++
    map (joinpath (OUT_DIR Raw.repo))
        ["icon-20.png"; "icon-20@2x.png"; "icon-20@2x-ipad.png";
         "icon-20@3x.png"]%string.
Proof.
  destruct (main_stops_at_first_blocked_path Raw.repo Raw.blocked_world
              Raw.source Raw.image _ _ _
              (lookup_singleton_eq _ _) Raw_source_decodes
              Raw_world0_clear Raw_blocked_world_split)
    as (Hraise & Hout & _).
  - intros m Hm. unfold Raw.blocked_world. cbn [dirs].
    rewrite elem_of_singleton. intros E. apply joinpath_inj in E. subst m.
    revert Hm. apply (bool_decide_unpack _). vm_compute. exact I.
  - unfold Raw.blocked_world. cbn [dirs]. apply elem_of_singleton.
    reflexivity.
  - split; [exact Hraise | exact Hout].
Defined.

End ConcreteExtras.
